(** * jarbas-core: speech orchestration, cache curation and the mpv backend

    A shallow embedding of the Python sources

      - [mycroft/audio/services/mpv/__init__.py]  (module [Mpv]),
      - [mycroft/util/__init__.py], function [curate_cache]  (module [Util]),
      - [mycroft/audio/speech.py]  (modules [Re] and [Speech]),

    followed by the properties proved about them.  Python floats are the
    binary64 numbers of [PrimFloat]; Python ints are [Z]; [str] is [string];
    a directory is a finite map from paths to inodes; module globals are
    the fields of a state record and every handler is a state transformer
    that may return, raise or block. *)

From Stdlib Require Import ZArith Floats Ascii String.
From stdpp Require Import base option list strings gmap sorting pretty.

Local Open Scope Z_scope.

(** ** Outcomes of Python code *)

Module Py.

(** The exceptions that the modelled code can meet. *)
Inductive exn : Type :=
| IndexError          (* list index out of range *)
| LockError           (* release of an unlocked lock: thread.error / RuntimeError *)
| OSError             (* a failed system call *)
| OverflowError       (* int() of an infinite float *)
| ValueError          (* int() of a NaN *)
| EngineError         (* any error raised by the TTS engine *)
| KeyboardInterrupt.

(** A run over a state of type [S] returns a value, raises, or blocks
    for ever on a lock that nobody will release. *)
Inductive outcome (S A : Type) : Type :=
| Return (a : A) (s : S)
| Raise (e : exn) (s : S)
| Block (s : S).
Arguments Return {S A} a s.
Arguments Raise {S A} e s.
Arguments Block {S A} s.

Definition M (S A : Type) : Type := S -> outcome S A.

Definition ret {S A} (a : A) : M S A := fun s => Return a s.
Definition raise {S A} (e : exn) : M S A := fun s => Raise e s.
Definition bind {S A B} (c : M S A) (k : A -> M S B) : M S B :=
  fun s => match c s with
           | Return a s' => k a s'
           | Raise e s' => Raise e s'
           | Block s' => Block s'
           end.
Definition get {S} : M S S := fun s => Return s s.
Definition modify {S} (f : S -> S) : M S unit := fun s => Return tt (f s).

(** [try: body  finally: fin]: [fin] runs on every exit of [body]; an
    exception raised by [fin] replaces whatever [body] produced. *)
Definition finally {S A} (body : M S A) (fin : M S unit) : M S A :=
  fun s => match body s with
           | Return a s' => match fin s' with
                            | Return _ s'' => Return a s''
                            | Raise e s'' => Raise e s''
                            | Block s'' => Block s''
                            end
           | Raise e s' => match fin s' with
                           | Return _ s'' => Raise e s''
                           | Raise e' s'' => Raise e' s''
                           | Block s'' => Block s''
                           end
           | Block s' => Block s'
           end.

(** The state in which a run ends, whatever its outcome. *)
Definition final {S A} (o : outcome S A) : S :=
  match o with Return _ s | Raise _ s | Block s => s end.

Definition returns {S A} (o : outcome S A) : bool :=
  match o with Return _ _ => true | _ => false end.

Definition raised {S A} (o : outcome S A) : option exn :=
  match o with Raise e _ => Some e | _ => None end.

(** [l[i]] on a Python list: negative indices count from the end. *)
Definition getitem {A} (l : list A) (i : Z) : option A :=
  let n := Z.of_nat (length l) in
  if (0 <=? i) && (i <? n) then l !! Z.to_nat i
  else if (- n <=? i) && (i <? 0) then l !! Z.to_nat (n + i)
  else None.

End Py.

Declare Scope py_scope.
Delimit Scope py_scope with py.
Notation "x <- c ;; k" := (Py.bind c (fun x => k))
(at level 100, c at next level, right associativity) : py_scope.
Notation "c ;; k" := (Py.bind c (fun _ => k))
(at level 100, right associativity) : py_scope.

(** ** mycroft/audio/services/mpv/__init__.py *)

Module Mpv.
Import Py.

(** Calls made on the [MPV] player object. *)
Inductive player_call : Type :=
| player_stop
| player_play (uri : string).

(** The fields of [MPVService] that [play], [next] and [previous] use,
    and the calls the player has received so far (latest last). *)
Record MPVService : Type := {
  tracks : list string;
  index : Z;
  player : list player_call
}.

Definition set_index (i : Z) (self : MPVService) : MPVService :=
  {| tracks := tracks self; index := i; player := player self |}.

Definition call_player (c : player_call) (self : MPVService) : MPVService :=
  {| tracks := tracks self; index := index self;
     player := player self ++ [c] |}.

Definition clear_list (self : MPVService) : MPVService :=
  {| tracks := []; index := index self; player := player self |}.

Definition add_list (ts : list string) (self : MPVService) : MPVService :=
  {| tracks := tracks self ++ ts; index := index self;
     player := player self |}.

(** [if len(self.tracks): self.player.stop();
    self.player.play(self.tracks[self.index])] *)
Definition play : M MPVService unit :=
  (self <- get ;;
   if (Z.of_nat (length (tracks self)) =? 0) then ret tt
   else
     (modify (call_player player_stop) ;;
      match getitem (tracks self) (index self) with
      | Some t => modify (call_player (player_play t))
      | None => raise IndexError
      end))%py.

(** [self.index = self.index + 1;
    if self.index > len(self.tracks): self.index = 0;  self.play()] *)
Definition next : M MPVService unit :=
  (self <- get ;;
   modify (set_index (index self + 1)) ;;
   self <- get ;;
   (if (index self >? Z.of_nat (length (tracks self)))
    then modify (set_index 0) else ret tt) ;;
   play)%py.

(** [self.index = self.index - 1;
    if self.index < 0: self.index = 0;  self.play()] *)
Definition previous : M MPVService unit :=
  (self <- get ;;
   modify (set_index (index self - 1)) ;;
   self <- get ;;
   (if (index self <? 0) then modify (set_index 0) else ret tt) ;;
   play)%py.

End Mpv.

(** ** The two regular expressions of [handle_speak] *)

Module Re.

Local Open Scope char_scope.

Definition between (lo hi c : ascii) : bool :=
  (lo <=? c)%char && (c <=? hi)%char.

(** [[A-Z]] and [[a-z]] *)
Definition upper (c : ascii) : bool := between "A" "Z" c.
Definition lower (c : ascii) : bool := between "a" "z" c.

(** [\w]: a letter, a digit or the underscore *)
Definition word (c : ascii) : bool :=
  upper c || lower c || between "0" "9" c || (c =? "_")%char.

(** [\s]: space, [\t], [\n], [\v], [\f], [\r] *)
Definition space (c : ascii) : bool :=
  (c =? " ")%char || between "009" "013" c.

(** [.]: anything but a newline *)
Definition dot (c : ascii) : bool := negb (c =? "010")%char.

(** The look-behinds read the text before the current position; it is
    kept reversed, nearest character first.

    [(?<=\.|\?)]: the previous character is a period or a question mark. *)
Definition after_stop (before : list ascii) : bool :=
  match before with
  | c :: _ => (c =? ".")%char || (c =? "?")%char
  | [] => false
  end.

(** [[A-Z][a-z]\.] ends at the current position. *)
Definition after_title (before : list ascii) : bool :=
  match before with
  | c3 :: c2 :: c1 :: _ => upper c1 && lower c2 && (c3 =? ".")%char
  | _ => false
  end.

(** [\w\.\w.] ends at the current position. *)
Definition after_initials (before : list ascii) : bool :=
  match before with
  | c4 :: c3 :: c2 :: c1 :: _ =>
      word c1 && (c2 =? ".")%char && word c3 && dot c4
  | _ => false
  end.

(** [(?<!\w\.\w.)(?<![A-Z][a-z]\.)(?<=\.|\?)\s] matches the character
    [c] that follows the text [before]. *)
Definition boundary (before : list ascii) (c : ascii) : bool :=
  negb (after_initials before) && negb (after_title before)
  && after_stop before && space c.

(** [re.split]: the text is cut at every match, the matched character
    is dropped; [chunk] is the current piece, reversed. *)
Fixpoint split_from (before chunk : list ascii) (s : string) : list string :=
  match s with
  | EmptyString => [string_of_list_ascii (rev chunk)]
  | String c s' =>
      if boundary before c
      then string_of_list_ascii (rev chunk) :: split_from (c :: before) [] s'
      else split_from (c :: before) (c :: chunk) s'
  end.

(** [re.split(r'(?<!\w\.\w.)(?<![A-Z][a-z]\.)(?<=\.|\?)\s', utterance)] *)
Definition split (utterance : string) : list string :=
  split_from [] [] utterance.

(** [re.findall('<[^>]*>', s)]: the matches from left to right.  A
    match opens at the first [<] and closes at the next [>]; [open] is
    the text of the match under way, reversed. *)
Fixpoint findall_from (open : option (list ascii)) (s : string) : list string :=
  match s with
  | EmptyString => []
  | String c s' =>
      match open with
      | None =>
          if (c =? "<")%char then findall_from (Some [c]) s'
          else findall_from None s'
      | Some m =>
          if (c =? ">")%char
          then string_of_list_ascii (rev (c :: m)) :: findall_from None s'
          else findall_from (Some (c :: m)) s'
      end
  end.

Definition findall_tags (s : string) : list string := findall_from None s.

End Re.

(** ** mycroft/util/__init__.py: [curate_cache] *)

Module Util.
Import Py.

(** *** Numbers *)

(** [int(f)]: truncation towards zero; infinities and NaN raise. *)
Definition int_of_float (f : float) : exn + Z :=
  match Prim2SF f with
  | S754_zero _ => inr 0
  | S754_infinity _ => inl OverflowError
  | S754_nan => inl ValueError
  | S754_finite sign m e =>
      let v := if (0 <=? e) then Z.pos m * 2 ^ e
               else Z.pos m `quot` 2 ^ (- e) in
      inr (if sign then - v else v)
  end.

(** An int operand of a float operation is first converted, rounding
    to the nearest float. *)
Definition float_of_int (z : Z) : float :=
  SF2Prim (binary_normalize prec emax z 0 false).

(** *** The operating system *)

(** [psutil.disk_usage(directory)] *)
Record sdiskusage : Type := {
  total : Z;
  used : Z;
  free : Z;
  percent : float
}.

(** What [os.stat] reports of a file, and whether the system refuses
    to unlink it (no permission, busy). *)
Record inode : Type := {
  st_mode : Z;
  st_mtime : Z;
  st_size : Z;
  refused : bool
}.

(** [stat.S_ISREG] and [stat.S_ISDIR]: the file-type bits [0o170000] of
    the mode are [0o100000], respectively [0o040000]. *)
Definition S_IFMT (mode : Z) : Z := Z.land mode 61440.
Definition S_ISREG (mode : Z) : bool := S_IFMT mode =? 32768.
Definition S_ISDIR (mode : Z) : bool := S_IFMT mode =? 16384.

(** The files by path; the directories that [os.listdir] can list
    (one that is missing, is no directory or may not be read is not
    among them); the entries that [os.stat] cannot follow, links whose
    target is gone; the usage figures of the disk; and the paths
    unlinked so far, in the order of the calls (latest last). *)
Record os : Type := {
  files : gmap string inode;
  listable : gset string;
  dangling : gset string;
  usage : sdiskusage;
  unlinked : list string
}.

Definition ends_with_sep (a : string) : bool :=
  match rev (list_ascii_of_string a) with
  | c :: _ => (c =? "/")%char
  | [] => false
  end.

Definition starts_with_sep (b : string) : bool :=
  match b with
  | String c _ => (c =? "/")%char
  | EmptyString => false
  end.

(** [os.path.join(a, b)] of [posixpath] *)
Definition os_path_join (a b : string) : string :=
  if starts_with_sep b then b
  else if (a =? "")%string || ends_with_sep a then (a ++ b)%string
  else (a ++ "/" ++ b)%string.

Fixpoint strip_prefix (p s : string) : option string :=
  match p with
  | EmptyString => Some s
  | String a p' =>
      match s with
      | String b s' => if (a =? b)%char then strip_prefix p' s' else None
      | EmptyString => None
      end
  end.

Fixpoint has_sep (s : string) : bool :=
  match s with
  | EmptyString => false
  | String c s' => (c =? "/")%char || has_sep s'
  end.

(** The name under which [path] appears in [directory], if it lies
    directly in it. *)
Definition child_name (directory path : string) : option string :=
  match strip_prefix (os_path_join directory "") path with
  | Some name =>
      if (name =? "")%string || has_sep name then None else Some name
  | None => None
  end.

(** The names that lie directly in [directory], in whatever order the
    system lists. *)
Definition names_in (directory : string) (w : os) : list string :=
  omap (child_name directory) (map_to_list (files w)).*1.

(** [os.listdir(directory)]: an error when the directory cannot be
    listed. *)
Definition os_listdir (directory : string) : M os (list string) :=
  fun w => if bool_decide (directory ∈ listable w)
           then Return (names_in directory w) w
           else Raise OSError w.

(** [os.stat(path)]: an error when the path is not there, or is a
    link whose target is gone. *)
Definition os_stat (path : string) : M os inode :=
  fun w => if bool_decide (path ∈ dangling w) then Raise OSError w
           else match files w !! path with
                | Some i => Return i w
                | None => Raise OSError w
                end.

(** [os.remove(path)] *)
Definition os_remove (path : string) : M os unit :=
  fun w => match files w !! path with
           | Some i =>
               if refused i || S_ISDIR (st_mode i) then Raise OSError w
               else Return tt {| files := delete path (files w);
                                 listable := listable w;
                                 dangling := dangling w;
                                 usage := usage w;
                                 unlinked := unlinked w ++ [path] |}
           | None => Raise OSError w
           end.

(** *** The sweep *)

(** [(stat[ST_MTIME], stat[ST_SIZE], path)] *)
Definition entry : Type := Z * Z * string.

(** Tuples compare component by component, strings by character code. *)
Definition entry_leb (x y : entry) : bool :=
  match x, y with
  | (m1, s1, p1), (m2, s2, p2) =>
      (m1 <? m2)
      || ((m1 =? m2) && ((s1 <? s2) || ((s1 =? s2) && String.leb p1 p2)))
  end.

Definition entry_le (x y : entry) : Prop := entry_leb x y.

(** [sorted(entries)] *)
Definition sorted (entries : list entry) : list entry :=
  merge_sort entry_le entries.

(** [try: body  except: pass], the value [a] standing for the locals
    that [body] did not get to update. *)
Definition except_pass {S A} (body : M S A) (a : A) : M S A :=
  fun s => match body s with
           | Return a' s' => Return a' s'
           | Raise _ s' => Return a s'
           | Block s' => Block s'
           end.

Fixpoint mapM {S A B} (f : A -> M S B) (l : list A) : M S (list B) :=
  match l with
  | [] => ret []
  | a :: l' => (b <- f a ;; bs <- mapM f l' ;; ret (b :: bs))%py
  end.

(** [for moddate, fsize, path in ...:
       try: os.remove(path); space_freed += fsize
       except: pass
       if space_freed > bytes_needed: return] *)
Fixpoint sweep (bytes_needed : Z) (entries : list entry) (space_freed : Z)
  : M os unit :=
  match entries with
  | [] => ret tt
  | (moddate, fsize, path) :: rest =>
      (space_freed <- except_pass
                        (os_remove path ;; ret (space_freed + fsize))
                        space_freed ;;
       if space_freed >? bytes_needed then ret tt
       else sweep bytes_needed rest space_freed)%py
  end.

(** [100.0 - space.percent] *)
Definition percent_free (space : sdiskusage) : float :=
  (100 - percent space)%float.

(** [percent_free < min_free_percent and space.free < min_free_disk],
    [min_free_disk] already in bytes. *)
Definition low_diskspace (space : sdiskusage) (min_free_percent : float)
    (min_free_disk : Z) : bool :=
  (percent_free space <? min_free_percent)%float
  && (free space <? min_free_disk).

(** [int((min_free_percent - percent_free) / 100.0 * space.total + 1.0)] *)
Definition bytes_needed (space : sdiskusage) (min_free_percent : float)
  : exn + Z :=
  int_of_float
    ((min_free_percent - percent_free space) / 100
     * float_of_int (total space) + 1)%float.

(** The regular files of the directory as [(mtime, size, path)], in
    listing order.  [os.listdir] is called where the first generator is
    made and raises there; the generators are consumed by [sorted], so
    every entry is stat'ed, and [os.stat] may raise, before the first
    file is removed. *)
Definition regular_entries (directory : string) : M os (list entry) :=
  (names <- os_listdir directory ;;
   stats <- mapM (fun path => st <- os_stat path ;; ret (st, path))
                 (os_path_join directory <$> names) ;;
   ret ((fun '(st, path) => (st_mtime st, st_size st, path))
          <$> filter (fun '(st, _) => S_ISREG (st_mode st) = true) stats))%py.

(** [curate_cache(directory, min_free_percent=5.0, min_free_disk=50)],
    [min_free_percent] a float and [min_free_disk] an int as in the
    defaults. *)
Definition curate_cache (directory : string) (min_free_percent : float)
    (min_free_disk : Z) : M os unit :=
  (w <- get ;;
   let space := usage w in
   let min_free_disk := min_free_disk * (1024 * 1024) in
   if low_diskspace space min_free_percent min_free_disk then
     match bytes_needed space min_free_percent with
     | inl e => raise e
     | inr bytes_needed =>
         entries <- regular_entries directory ;;
         sweep bytes_needed (sorted entries) 0
     end
   else ret tt)%py.

(** *** Vocabulary of the statements *)

Definition mtime_of (e : entry) : Z := e.1.1.
Definition size_of (e : entry) : Z := e.1.2.
Definition path_of (e : entry) : string := e.2.

(** [os.remove] of the entry's path succeeds in [w]. *)
Definition removable (w : os) (e : entry) : bool :=
  returns (os_remove (path_of e) w).

(** The bytes that a sweep over [l] frees: the sizes of the entries it
    manages to remove. *)
Definition freed (w : os) (l : list entry) : Z :=
  foldr (fun e acc => if removable w e then size_of e + acc else acc) 0 l.

(** The system after the paths [ps] were unlinked one after the other. *)
Definition unlink_all (ps : list string) (w : os) : os :=
  {| files := foldl (fun m p => delete p m) (files w) ps;
     listable := listable w;
     dangling := dangling w;
     usage := usage w;
     unlinked := unlinked w ++ ps |}.

(** [os.listdir(directory)] succeeds in [w], and so does [os.stat] on
    every entry that it lists. *)
Definition readable (directory : string) (w : os) : bool :=
  returns (os_listdir directory w)
  && forallb (fun path => returns (os_stat path w))
             (os_path_join directory <$> names_in directory w).

(** The regular files that lie directly in [directory], as the entries
    that the sweep sorts, in listing order. *)
Definition regular_in (directory : string) (w : os) : list entry :=
  omap (fun '(path, st) =>
          if bool_decide (is_Some (child_name directory path))
             && S_ISREG (st_mode st)
          then Some (st_mtime st, st_size st, path) else None)
       (map_to_list (files w)).

(** The amount as the specification words it, with nothing added and no
    rounding: [(min_free_percent - percent_free) / 100] of the total
    capacity. *)
Definition stated_bytes_needed (space : sdiskusage) (min_free_percent : float)
  : float :=
  ((min_free_percent - percent_free space) / 100
   * float_of_int (total space))%float.

(** A regular file with the usual mode [0o100644]. *)
Definition regular_file (mtime size : Z) (locked : bool) : inode :=
  {| st_mode := 33188; st_mtime := mtime; st_size := size;
     refused := locked |}.

(** A cache directory on a disk of 10^9 bytes of which 3% are free:
    three cached files and a subdirectory. *)
Definition small_cache : os :=
  {| files := list_to_map
       [("/cache/a"%string, regular_file 100 20000001 false);
        ("/cache/b"%string, regular_file 200 5000 false);
        ("/cache/c"%string, regular_file 300 7000 false);
        ("/cache/sub"%string,
         {| st_mode := 16877; st_mtime := 50; st_size := 4096;
            refused := false |});
        ("/cache/sub/x"%string, regular_file 10 10 false)];
     listable := {["/cache"%string; "/cache/sub"%string]};
     dangling := ∅;
     usage := {| total := 1000000000; used := 970000000; free := 30000000;
                 percent := 97 |};
     unlinked := [] |}.

(** The same cache when the system refuses to unlink its oldest file. *)
Definition locked_cache : os :=
  {| files := <["/cache/a"%string := regular_file 100 20000001 true]>
                (files small_cache);
     listable := listable small_cache;
     dangling := dangling small_cache;
     usage := usage small_cache;
     unlinked := [] |}.

(** The same cache with a link in it whose target is gone. *)
Definition stale_cache : os :=
  {| files := <["/cache/link"%string := regular_file 400 0 false]>
                (files small_cache);
     listable := listable small_cache;
     dangling := {["/cache/link"%string]};
     usage := usage small_cache;
     unlinked := [] |}.

End Util.

(** ** mycroft/audio/speech.py *)

Module Speech.
Import Py.

(** *** The world of the module *)

(** TTS engine instances, numbered in the order [TTSFactory] made them. *)
Definition engine : Type := nat.

(** The two places of the configuration that the module reads:
    [config.get('enclosure', {}).get('platform')] and the ['tts']
    subtree, a dict that is kept here as its [str()]; [None] when the
    key is absent. *)
Record configuration : Type := {
  platform : option string;
  tts_conf : option string
}.

(** The [speak] message: [event.data] and [event.context]. *)
Record message : Type := {
  utterance : string;
  expect_response : option bool;
  mute : option bool;
  ident : option string
}.

(** The values that [tts_hash] holds at one time or another. *)
Inductive pyobj : Type :=
| PyNone
| PyDict (repr : string)
| PyInt (h : Z).

(** [a != h] for an int [h]: an object that is no number differs from
    every int. *)
Definition py_ne (a : pyobj) (h : Z) : bool :=
  match a with
  | PyInt z => negb (z =? h)
  | PyNone | PyDict _ => true
  end.

(** Calls on the collaborators, in the order they are made. *)
Inductive event : Type :=
| ws_on (type_ handler : string)
| ws_once (type_ handler : string)
| emit_speech_start (data : message)
| emit_speak_status (enabled : bool)
| playback_stop (e : engine)
| playback_join (e : engine)
| playback_clear_queue (e : engine)
| playback_clear_visimes (e : engine)
| factory_create (e : engine)
| tts_init (e : engine)
| tts_execute (e : engine) (utterance ident : string)
| lock_acquire
| lock_release
| stopwatch_start
| stopwatch_stop
| report_timing (ident : string) (e : engine)
| create_signal (name : string)
| log_info (msg : string)
| log_error (msg : string).

(** The module globals, then what surrounds them: the configuration
    that [Configuration.get()] returns, the signal files present, the
    time that [time.time()] returns, the number of engines made, the
    utterances on which the engine's [execute] raises, and the calls
    made so far (latest last). *)
Record state : Type := {
  config : configuration;
  tts : engine;
  tts_hash : pyobj;
  lock : bool;
  _last_stop_signal : float;
  speak_flag : bool;
  Configuration : configuration;
  signals : gset string;
  clock : float;
  engines : nat;
  failing : string -> option exn;
  trace : list event
}.

Definition install (e : engine) (s : state) : state :=
  {| config := config s; tts := e; tts_hash := tts_hash s; lock := lock s;
     _last_stop_signal := _last_stop_signal s; speak_flag := speak_flag s;
     Configuration := Configuration s; signals := signals s;
     clock := clock s; engines := S (engines s); failing := failing s;
     trace := trace s |}.

Definition set_tts_hash (h : pyobj) (s : state) : state :=
  {| config := config s; tts := tts s; tts_hash := h; lock := lock s;
     _last_stop_signal := _last_stop_signal s; speak_flag := speak_flag s;
     Configuration := Configuration s; signals := signals s;
     clock := clock s; engines := engines s; failing := failing s;
     trace := trace s |}.

Definition set_lock (b : bool) (s : state) : state :=
  {| config := config s; tts := tts s; tts_hash := tts_hash s; lock := b;
     _last_stop_signal := _last_stop_signal s; speak_flag := speak_flag s;
     Configuration := Configuration s; signals := signals s;
     clock := clock s; engines := engines s; failing := failing s;
     trace := trace s |}.

Definition set_last_stop_signal (t : float) (s : state) : state :=
  {| config := config s; tts := tts s; tts_hash := tts_hash s;
     lock := lock s; _last_stop_signal := t; speak_flag := speak_flag s;
     Configuration := Configuration s; signals := signals s;
     clock := clock s; engines := engines s; failing := failing s;
     trace := trace s |}.

Definition set_flag (b : bool) (s : state) : state :=
  {| config := config s; tts := tts s; tts_hash := tts_hash s;
     lock := lock s; _last_stop_signal := _last_stop_signal s;
     speak_flag := b; Configuration := Configuration s;
     signals := signals s; clock := clock s; engines := engines s;
     failing := failing s; trace := trace s |}.

Definition set_configuration (c : configuration) (s : state) : state :=
  {| config := c; tts := tts s; tts_hash := tts_hash s; lock := lock s;
     _last_stop_signal := _last_stop_signal s; speak_flag := speak_flag s;
     Configuration := c; signals := signals s; clock := clock s;
     engines := engines s; failing := failing s; trace := trace s |}.

Definition set_signals (g : gset string) (s : state) : state :=
  {| config := config s; tts := tts s; tts_hash := tts_hash s;
     lock := lock s; _last_stop_signal := _last_stop_signal s;
     speak_flag := speak_flag s; Configuration := Configuration s;
     signals := g; clock := clock s; engines := engines s;
     failing := failing s; trace := trace s |}.

Definition set_clock (t : float) (s : state) : state :=
  {| config := config s; tts := tts s; tts_hash := tts_hash s;
     lock := lock s; _last_stop_signal := _last_stop_signal s;
     speak_flag := speak_flag s; Configuration := Configuration s;
     signals := signals s; clock := t; engines := engines s;
     failing := failing s; trace := trace s |}.

Definition record (ev : event) (s : state) : state :=
  {| config := config s; tts := tts s; tts_hash := tts_hash s;
     lock := lock s; _last_stop_signal := _last_stop_signal s;
     speak_flag := speak_flag s; Configuration := Configuration s;
     signals := signals s; clock := clock s; engines := engines s;
     failing := failing s; trace := trace s ++ [ev] |}.

Definition call (ev : event) : M state unit := modify (record ev).

(** *** Collaborators

    The message bus, the playback thread, the factory and the logger
    are outside the module: a call on them is recorded in the trace and
    returns; only the engine's [execute] may raise, as [failing] says.
    [Configuration.init(ws)] touches nothing that the module reads. *)

(** [lock.acquire()], as [with lock:] does on entry: it waits while
    the lock is held. *)
Definition acquire : M state unit :=
  fun s => if lock s then Block s
           else Return tt (record lock_acquire (set_lock true s)).

(** [lock.release()]: releasing a lock that is not held is an error. *)
Definition release : M state unit :=
  (call lock_release ;;
   s <- get ;;
   if lock s then modify (set_lock false) else raise LockError)%py.

(** [with lock: body] *)
Definition with_lock {A} (body : M state A) : M state A :=
  (acquire ;; finally body release)%py.

(** [tts = TTSFactory.create()] *)
Definition TTSFactory_create : M state unit :=
  (s <- get ;;
   call (factory_create (engines s)) ;;
   modify (install (engines s)))%py.

(** [tts.execute(utterance, ident)] *)
Definition execute (utterance ident : string) : M state unit :=
  (s <- get ;;
   call (tts_execute (tts s) utterance ident) ;;
   match failing s utterance with
   | Some e => raise e
   | None => ret tt
   end)%py.

(** [time.time()] *)
Definition time_time : M state float :=
  (s <- get ;; ret (clock s))%py.

(** Modelled from the spec: [check_for_signal] lives in
    [mycroft.util.signal], which is not among the sources; the
    specification names it an external signal-check primitive, so it
    answers whether the named signal is present. *)
Definition check_for_signal (name : string) (sec_lifetime : Z)
  : M state bool :=
  (s <- get ;; ret (bool_decide (name ∈ signals s)))%py.

(** *** The handlers *)

Section Handlers.

(** The built-in [hash] on strings. *)
Variable hash : string -> Z.

(** [hash(str(config.get('tts', '')))] *)
Definition fingerprint (c : configuration) : Z :=
  hash (default ""%string (tts_conf c)).

Definition speak_status : M state unit :=
  (s <- get ;; call (emit_speak_status (speak_flag s)))%py.

Definition set_speak_flag : M state unit :=
  (modify (set_flag true) ;; speak_status)%py.

Definition unset_speak_flag : M state unit :=
  (modify (set_flag false) ;; speak_status)%py.

Definition _start_listener : M state unit :=
  call (create_signal "startListening").

(** [mute_and_speak(utterance, ident, mute=False)] *)
Definition mute_and_speak (utterance ident : string) (mute : bool)
  : M state unit :=
  (call (log_info ("Speak: " ++ utterance)) ;;
   s <- get ;;
   if negb (speak_flag s) then ret tt
   else
     ((if py_ne (tts_hash s) (fingerprint (config s)) then
         (call (playback_stop (tts s)) ;;
          call (playback_join (tts s)) ;;
          TTSFactory_create ;;
          s <- get ;;
          call (tts_init (tts s)) ;;
          modify (set_tts_hash (PyInt (fingerprint (config s)))))
       else ret tt) ;;
      finally (if negb mute then execute utterance ident else ret tt)
              release))%py.

(** [handle_stop(event)] *)
Definition handle_stop : M state unit :=
  (speaking <- check_for_signal "isSpeaking" (-1) ;;
   if speaking : bool then
     (now <- time_time ;;
      modify (set_last_stop_signal now) ;;
      s <- get ;;
      call (playback_clear_queue (tts s)) ;;
      call (playback_clear_visimes (tts s)))
   else ret tt)%py.

(** What the other threads do while [handle_speak] runs. *)
Inductive action : Type :=
| tick (t : float)
| raise_signal (name : string)
| drop_signal (name : string)
| stop_message
| enable_message
| disable_message
| reconfigure (c : configuration).

Definition act (a : action) : M state unit :=
  match a with
  | tick t => modify (set_clock t)
  | raise_signal name =>
      (s <- get ;; modify (set_signals ({[name]} ∪ signals s)))%py
  | drop_signal name =>
      (s <- get ;; modify (set_signals (signals s ∖ {[name]})))%py
  | stop_message => handle_stop
  | enable_message => set_speak_flag
  | disable_message => unset_speak_flag
  | reconfigure c => modify (set_configuration c)
  end.

(** The other threads run to their end; what they raise stays with
    them. *)
Definition others (acts : list action) : M state unit :=
  fun s => Return tt (foldl (fun s a => final (act a s)) s acts).

(** What happens around the [i]-th chunk: before [mute_and_speak] is
    called on it, and between that call and the test that follows. *)
Record interference : Type := {
  before_call : list action;
  before_check : list action
}.

Definition schedule : Type := nat -> interference.

Definition quiet : schedule :=
  fun _ => {| before_call := []; before_check := [] |}.

(** [try: mute_and_speak(chunk, ident)
    except KeyboardInterrupt: raise
    except: LOG.error('Error in mute_and_speak', exc_info=True)] *)
Definition guarded (body : M state unit) : M state unit :=
  fun s => match body s with
           | Raise KeyboardInterrupt s' => Raise KeyboardInterrupt s'
           | Raise _ s' =>
               Return tt (record (log_error "Error in mute_and_speak") s')
           | o => o
           end.

(** [for chunk in chunks: ...], [i] the position of the first chunk
    of [chunks] in the utterance. *)
Fixpoint speak_chunks (sched : schedule) (start : float) (ident : string)
    (i : nat) (chunks : list string) : M state unit :=
  match chunks with
  | [] => ret tt
  | chunk :: rest =>
      (others (before_call (sched i)) ;;
       guarded (mute_and_speak chunk ident false) ;;
       others (before_check (sched i)) ;;
       s <- get ;;
       stop <- (if (start <? _last_stop_signal s)%float then ret true
                else check_for_signal "buttonPress" 0) ;;
       if stop : bool then ret tt
       else speak_chunks sched start ident (S i) rest)%py
  end.

(** [handle_speak(event)] *)
Definition handle_speak (sched : schedule) (event : message)
  : M state unit :=
  (s <- get ;;
   let config := Configuration s in
   let ident := default "unknown"%string (ident event) in
   with_lock
     (call stopwatch_start ;;
      call (emit_speech_start event) ;;
      let utterance := utterance event in
      (if default false (expect_response event)
       then call (ws_once "recognizer_loop:audio_output_end"
                          "_start_listener")
       else ret tt) ;;
      let mute := default false (mute event) in
      (if negb (bool_decide (platform config = Some "picroft"%string))
          && (length (Re.findall_tags utterance) =? 0)%nat
       then
         (start <- time_time ;;
          speak_chunks sched start ident 0 (Re.split utterance))
       else mute_and_speak utterance ident mute) ;;
      call stopwatch_stop) ;;
   s <- get ;;
   call (report_timing ident (tts s)))%py.

End Handlers.

(** [init(websocket)], from the values the globals have when the
    module is loaded: the lock free, [_last_stop_signal = 0],
    [speak_flag = True]. *)
Definition init (current : configuration) (sigs : gset string)
    (now : float) (fails : string -> option exn) : state :=
  {| config := current;
     tts := 0%nat;
     tts_hash := match tts_conf current with
                 | Some d => PyDict d
                 | None => PyNone
                 end;
     lock := false;
     _last_stop_signal := 0;
     speak_flag := true;
     Configuration := current;
     signals := sigs;
     clock := now;
     engines := 1;
     failing := fails;
     trace := [ws_on "mycroft.stop" "handle_stop";
               ws_on "mycroft.audio.speech.stop" "handle_stop";
               ws_on "mycroft.mic.listen" "_start_listener";
               ws_on "speak" "handle_speak";
               ws_on "speak.enable" "set_speak_flag";
               ws_on "speak.disable" "unset_speak_flag";
               ws_on "speak.status.request" "speak_status";
               factory_create 0%nat;
               tts_init 0%nat] |}.

(** The state in which [mute_and_speak] reaches its [try], when the
    speech flag is set: the call is logged and, if [tts_hash] differs
    from the fingerprint of the configuration, the engine was swapped
    and the fingerprint recorded. *)
Definition prepared (hash : string -> Z) (utterance : string) (s : state)
  : state :=
  let s1 := record (log_info ("Speak: " ++ utterance)) s in
  if py_ne (tts_hash s) (fingerprint hash (config s)) then
    set_tts_hash (PyInt (fingerprint hash (config s)))
      (record (tts_init (engines s))
         (install (engines s)
            (record (factory_create (engines s))
               (record (playback_join (tts s))
                  (record (playback_stop (tts s)) s1)))))
  else s1.

(** [try: if not mute: tts.execute(utterance, ident)
    finally: lock.release()], the end of [mute_and_speak]. *)
Definition try_execute (utterance ident : string) (mute : bool)
  : M state unit :=
  finally (if negb mute then execute utterance ident else ret tt) release.

(** The state in which [handle_speak] reaches its [if]: the lock is
    taken, the stopwatch started, the start of speech announced, the
    listener registered when a response is expected. *)
Definition entered (event : message) (s : state) : state :=
  let s := record (emit_speech_start event)
             (record stopwatch_start
                (record lock_acquire (set_lock true s))) in
  if default false (expect_response event)
  then record (ws_once "recognizer_loop:audio_output_end" "_start_listener") s
  else s.

(** Whether [handle_speak] splits the utterance. *)
Definition splits (c : configuration) (utterance : string) : bool :=
  negb (bool_decide (platform c = Some "picroft"%string))
  && (length (Re.findall_tags utterance) =? 0)%nat.

(** The [if] of [handle_speak], both branches. *)
Definition speak_branch (hash : string -> Z) (sched : schedule)
    (event : message) (c : configuration) : M state unit :=
  if splits c (utterance event) then
    (start <- time_time ;;
     speak_chunks hash sched start (default "unknown"%string (ident event))
       0 (Re.split (utterance event)))%py
  else mute_and_speak hash (utterance event)
         (default "unknown"%string (ident event))
         (default false (mute event)).

(** The string hash of CPython 2.7 on a 64-bit machine, one
    instance of [hash]. *)
Definition wrap64 (x : Z) : Z := x mod 2 ^ 64.

Definition signed64 (x : Z) : Z :=
  if x <? 2 ^ 63 then x else x - 2 ^ 64.

Definition hash27 (s : string) : Z :=
  let ord (c : ascii) := Z.of_N (N_of_ascii c) in
  let p := list_ascii_of_string s in
  match p with
  | [] => 0
  | c :: _ =>
      let x := foldl (fun x c => Z.lxor (wrap64 (1000003 * x)) (ord c))
                     (Z.shiftl (ord c) 7) p in
      let x := signed64 (Z.lxor x (Z.of_nat (List.length p))) in
      if x =? -1 then -2 else x
  end.

(** The trace events that reach the engine, in order. *)
Definition executed (tr : list event) : list string :=
  omap (fun ev => match ev with
                  | tts_execute _ u _ => Some u
                  | _ => None
                  end) tr.

(** The trace events of an engine swap. *)
Definition swap_event (ev : event) : bool :=
  match ev with
  | playback_stop _ | playback_join _ | factory_create _ | tts_init _ => true
  | _ => false
  end.

(** One drain-and-reconstruct cycle: the old engine's playback is
    stopped and joined, a new engine is made and initialised. *)
Definition swap_cycle (old new : engine) : list event :=
  [playback_stop old; playback_join old; factory_create new; tts_init new].

Definition swaps (tr : list event) : list event :=
  List.filter swap_event tr.

Definition releases (tr : list event) : nat :=
  List.length (List.filter (fun ev => match ev with
                                     | lock_release => true
                                     | _ => false
                                     end) tr).

Definition is_execute (ev : event) : bool :=
  match ev with
  | tts_execute _ _ _ => true
  | _ => false
  end.

(** What no step of [handle_speak] changes except through an engine
    swap or an action of another thread: every global but the lock, and
    the world around the module. *)
Definition same_globals (s s' : state) : Prop :=
  config s' = config s /\ tts s' = tts s /\ tts_hash s' = tts_hash s
  /\ _last_stop_signal s' = _last_stop_signal s
  /\ speak_flag s' = speak_flag s /\ Configuration s' = Configuration s
  /\ signals s' = signals s /\ clock s' = clock s
  /\ engines s' = engines s /\ failing s' = failing s.

(** [s'] comes after [s] by steps that leave the globals alone and
    make no call of the kind [keep]. *)
Definition frame (keep : event -> bool) (s s' : state) : Prop :=
  List.filter keep (trace s') = List.filter keep (trace s)
  /\ same_globals s s'.

(** The events that [handle_speak] itself records around its branch,
    and the log lines: none of them is of the kind [keep]. *)
Definition bookkeeping (keep : event -> bool) : Prop :=
  keep lock_acquire = false /\ keep lock_release = false
  /\ keep stopwatch_start = false /\ keep stopwatch_stop = false
  /\ (forall m, keep (emit_speech_start m) = false)
  /\ (forall t h, keep (ws_once t h) = false)
  /\ (forall i e, keep (report_timing i e) = false)
  /\ (forall m, keep (log_info m) = false)
  /\ (forall m, keep (log_error m) = false).


(** *** Sample requests and schedules *)

Definition mimic : configuration :=
  {| platform := None; tts_conf := Some "{'module': 'mimic'}"%string |}.


(** The module just initialised at time 1000, with an engine that
    never fails and no signal raised. *)
Definition fresh : state := init mimic ∅ 1000 (fun _ => None).

(** A [speak] message that carries only an utterance. *)
Definition speak (u : string) : message :=
  {| utterance := u; expect_response := None; mute := None; ident := None |}.


(** While audio plays ([isSpeaking] is raised), a stop message is
    handled at time [t]: either after the test that follows chunk
    [k - 1] and before chunk [k] is handed over, or between the handing
    over of chunk [k] and the test that follows it. *)
Definition stop_before (k : nat) (t : float) : schedule :=
  fun i => if (i =? k)%nat
           then {| before_call := [raise_signal "isSpeaking"; tick t;
                                   stop_message];
                   before_check := [] |}
           else {| before_call := []; before_check := [] |}.

Definition stop_during (k : nat) (t : float) : schedule :=
  fun i => if (i =? k)%nat
           then {| before_call := [];
                   before_check := [raise_signal "isSpeaking"; tick t;
                                    stop_message] |}
           else {| before_call := []; before_check := [] |}.

(** A stop message that arrives while nothing plays. *)
Definition stop_in_silence (k : nat) (t : float) : schedule :=
  fun i => if (i =? k)%nat
           then {| before_call := [];
                   before_check := [tick t; stop_message] |}
           else {| before_call := []; before_check := [] |}.



End Speech.

(** ** Vocabulary for the chunks of an utterance *)

Module Chunks.

(** The chunks put back together, [seps] the characters between them. *)
Fixpoint rejoin (chunks : list string) (seps : list ascii) : string :=
  match chunks, seps with
  | c :: cs, sp :: seps' => (c ++ String sp (rejoin cs seps'))%string
  | c :: _, [] => c
  | [], _ => ""%string
  end.

(** The text [s] has the piece [old] somewhere in it. *)
Fixpoint occurs (old s : string) : bool :=
  match s with
  | EmptyString => (old =? "")%string
  | String _ s' =>
      match Util.strip_prefix old s with
      | Some _ => true
      | None => occurs old s'
      end
  end.

(** The piece under way, [chunk], is the end of the text read so far,
    [before], both reversed. *)
Definition chunk_of (before chunk : list ascii) : Prop :=
  match chunk with
  | [] => Re.after_stop before = false
  | c :: _ => exists b, before = c :: b
  end.

End Chunks.

(** ** Vocabulary for the runs of [handle_speak] *)

Module Runs.
Import Speech.

(** From [s] to [s'] nothing reached the engine, no engine was swapped,
    the lock was neither taken nor released, and speech is disabled at
    the end. *)
Definition silent (s s' : state) : Prop :=
  executed (trace s') = executed (trace s)
  /\ swaps (trace s') = swaps (trace s)
  /\ releases (trace s') = releases (trace s)
  /\ lock s' = lock s
  /\ tts s' = tts s
  /\ speak_flag s' = false.

(** The registrations of a one-shot handler on the message bus. *)
Definition is_once (ev : event) : bool :=
  match ev with
  | ws_once _ _ => true
  | _ => false
  end.

(** From [s] to [s'] no one-shot handler was registered. *)
Definition no_once (s s' : state) : Prop :=
  List.filter is_once (trace s') = List.filter is_once (trace s).

(** No [speak.enable] message is handled while the request runs. *)
Definition never_enabled (sched : schedule) : Prop :=
  forall i, (enable_message ∉ before_call (sched i))
            /\ (enable_message ∉ before_check (sched i)).

(** A schedule in which [speak.disable] arrives twice and a stop once. *)
Definition disabled_again : schedule :=
  fun i => {| before_call := [disable_message; tick 2000];
              before_check := [raise_signal "isSpeaking"; stop_message;
                               disable_message] |}.

(** A [speak] message that expects a response. *)
Definition ask (u : string) : message :=
  {| utterance := u; expect_response := Some true; mute := None;
     ident := None |}.



End Runs.

(** ** mycroft/util/__init__.py: helpers on strings and paths *)

Module Text.
Import Py.

(** [s.startswith(p)] *)
Definition startswith (p s : string) : bool :=
  match Util.strip_prefix p s with
  | Some _ => true
  | None => false
  end.

(** [s.replace(old, new)] for a non-empty [old]: the occurrences of
    [old] are taken from left to right, none overlapping another;
    [skip] counts the characters of the current occurrence that are
    still to be passed. *)
Fixpoint replace_from (old new : string) (skip : nat) (s : string) : string :=
  match s with
  | EmptyString => EmptyString
  | String c s' =>
      match skip with
      | S k => replace_from old new k s'
      | O =>
          if startswith old s
          then (new ++ replace_from old new (String.length old - 1) s')%string
          else String c (replace_from old new 0 s')
      end
  end.

(** [get_http(uri)]: [uri.replace("https://", "http://")] *)
Definition get_http (uri : string) : string :=
  replace_from "https://" "http://" 0 uri.

(** No character of [l] is an [h]. *)
Fixpoint no_h (l : string) : bool :=
  match l with
  | EmptyString => true
  | String c l' => negb (c =? "h")%char && no_h l'
  end.

(** [remove_last_slash(url)]: [if url and url.endswith('/'): url = url[:-1]];
    [url] may be [None]. *)
Definition remove_last_slash (url : option string) : option string :=
  match url with
  | Some u =>
      if negb (u =? "")%string && Util.ends_with_sep u
      then Some (string_of_list_ascii (removelast (list_ascii_of_string u)))
      else Some u
  | None => None
  end.

(** [s.lstrip()] and [s.strip()]: the whitespace characters are taken
    off the ends. *)
Fixpoint lstrip (s : string) : string :=
  match s with
  | EmptyString => EmptyString
  | String c s' => if Re.space c then lstrip s' else s
  end.

Definition reversed (s : string) : string :=
  string_of_list_ascii (rev (list_ascii_of_string s)).

Definition strip (s : string) : string :=
  reversed (lstrip (reversed (lstrip s))).

(** The pieces of [s] between the occurrences of [sep], taken from
    left to right; [piece] is the current piece, reversed, and [skip]
    counts the characters of the current occurrence still to be
    passed. *)
Fixpoint split_at (sep : string) (skip : nat) (piece : list ascii)
    (s : string) : list string :=
  match s with
  | EmptyString => [string_of_list_ascii (rev piece)]
  | String c s' =>
      match skip with
      | S k => split_at sep k piece s'
      | O =>
          if startswith sep s
          then string_of_list_ascii (rev piece)
               :: split_at sep (String.length sep - 1) [] s'
          else split_at sep 0 (c :: piece) s'
      end
  end.

(** [s.split(sep)]: an empty separator is an error. *)
Definition str_split (s sep : string) : exn + list string :=
  if (sep =? "")%string then inl ValueError
  else inr (split_at sep 0 [] s).

(** [(key, val) = line.split(div); d[key.strip()] = val.strip()]:
    unpacking anything but two pieces is an error. *)
Definition read_line (div : string) (d : gmap string string) (line : string)
  : exn + gmap string string :=
  match str_split line div with
  | inr [key; val] => inr (<[strip key := strip val]> d)
  | inr _ => inl ValueError
  | inl e => inl e
  end.

(** [read_dict(filename, div='=')], from the lines that iterating over
    the open file gives. *)
Fixpoint read_from (div : string) (d : gmap string string)
    (lines : list string) : exn + gmap string string :=
  match lines with
  | [] => inr d
  | line :: rest =>
      match read_line div d line with
      | inr d' => read_from div d' rest
      | inl e => inl e
      end
  end.

Definition read_dict (lines : list string) (div : string)
  : exn + gmap string string :=
  read_from div ∅ lines.

(** The character [c] is in the text [s]. *)
Fixpoint has_char (c : ascii) (s : string) : bool :=
  match s with
  | EmptyString => false
  | String x s' => (x =? c)%char || has_char c s'
  end.

(** The dictionary that the entries [kvs] give when they are stored
    one after the other. *)
Definition stored (kvs : list (string * string)) : gmap string string :=
  foldl (fun d kv => <[strip kv.1 := strip kv.2]> d) ∅ kvs.

(** What [get_language_dir] asks of the file system: [os.path.isdir]
    and [os.listdir], which may raise. *)
Record filesystem : Type := {
  isdir : string -> bool;
  listdir : string -> exn + list string
}.

(** ["-" in lang] *)
Fixpoint has_dash (lang : string) : bool :=
  match lang with
  | EmptyString => false
  | String c lang' => (c =? "-")%char || has_dash lang'
  end.

(** [lang.split("-")[0]] *)
Fixpoint before_dash (lang : string) : string :=
  match lang with
  | EmptyString => EmptyString
  | String c lang' =>
      if (c =? "-")%char then EmptyString else String c (before_dash lang')
  end.

(** The last part of [get_language_dir]: the first directory of
    [base_path] whose name starts with [main], else the default. *)
Definition dialect_dir (w : filesystem) (base_path lang main : string)
  : exn + string :=
  if isdir w base_path then
    match listdir w base_path with
    | inl e => inl e
    | inr names =>
        let candidates := List.filter (startswith main) names in
        let candidates := Util.os_path_join base_path <$> candidates in
        let paths := List.filter (isdir w) candidates in
        match paths with
        | p :: _ => inr p
        | [] => inr (Util.os_path_join base_path lang)
        end
    end
  else inr (Util.os_path_join base_path lang).

(** [get_language_dir(base_path, lang="en-us")] *)
Definition get_language_dir (w : filesystem) (base_path lang : string)
  : exn + string :=
  let lang_path := Util.os_path_join base_path lang in
  if isdir w lang_path then inr lang_path
  else if has_dash lang then
    let main := before_dash lang in
    let general_lang_path := Util.os_path_join base_path main in
    if isdir w general_lang_path then inr general_lang_path
    else dialect_dir w base_path lang main
  else dialect_dir w base_path lang lang.

(** A resource directory with British and Australian English only. *)
Definition dialects_only : filesystem :=
  {| isdir := fun p => bool_decide (p ∈ ["/res"; "/res/en-gb"; "/res/en-au";
                                         "/res/de-de"]%string);
     listdir := fun p => if (p =? "/res")%string
                         then inr ["de-de"; "en.txt"; "en-gb"; "en-au"]%string
                         else inl OSError |}.

End Text.

(** ** mycroft/client/enclosure/eyes.py *)

Module Eyes.
Import Py.

(** [event.data] of a message whose values are ints, so that [int(v)]
    is [v]; [None] stands for a call without event. *)
Definition event : Type := option (gmap string Z).

(** [event and event.data]: an event with a non-empty payload. *)
Definition with_data (ev : event) : option (gmap string Z) :=
  match ev with
  | Some data => if bool_decide (data = ∅) then None else Some data
  | None => None
  end.

(** The lines written on the serial port, latest last. *)
Definition writer : Type := list string.

Definition write (line : string) : M writer unit :=
  modify (fun w => w ++ [line]).

(** [(r * 65536) + (g * 256) + b] *)
Definition packed (r g b : Z) : Z := r * 65536 + g * 256 + b.

(** [color(event=None)] *)
Definition color (ev : event) : M writer unit :=
  let '(r, g, b) :=
    match with_data ev with
    | Some data => (default 255 (data !! "r"), default 255 (data !! "g"),
                    default 255 (data !! "b"))
    | None => (255, 255, 255)
    end in
  write ("eyes.color=" ++ pretty (packed r g b)).

(** [round(x)] of Python 2: the nearest integral float, halves away
    from zero; infinities and NaN are returned as they are. *)
Definition round (x : float) : float :=
  match Util.int_of_float x with
  | inr z =>
      let t := Util.float_of_int z in
      if (0.5 <=? x - t)%float then (t + 1)%float
      else if (x - t <=? -0.5)%float then (t - 1)%float
      else t
  | inl _ => x
  end.

(** [int(round(23.0 * percent / 100.0))] *)
Definition fill_amount (percent : Z) : exn + Z :=
  Util.int_of_float (round (23 * Util.float_of_int percent / 100)%float).

(** [fill(event=None)] *)
Definition fill (ev : event) : M writer unit :=
  match with_data ev with
  | Some data =>
      match fill_amount (default 0 (data !! "percentage")) with
      | inr amount => write ("eyes.fill=" ++ pretty amount)
      | inl e => raise e
      end
  | None => write ("eyes.fill=" ++ pretty 0)
  end.

(** The value that [color] reads for the channel [k]. *)
Definition channel (ev : event) (k : string) : Z :=
  default 255 (ev ≫= lookup k).

(** The payload [{"r": r, "g": g, "b": b}]. *)
Definition rgb (r g b : Z) : event :=
  Some (<["r"%string := r]> (<["g"%string := g]> {["b"%string := b]})).

End Eyes.

(** * Properties *)

(** ** The mpv backend *)

Section MpvFacts.
Import Py Mpv.

Lemma getitem_at_length {A} (l : list A) :
  getitem l (Z.of_nat (length l)) = None.
Proof.
  unfold getitem.
  replace (Z.of_nat (length l) <? Z.of_nat (length l)) with false
    by (symmetry; apply Z.ltb_irrefl).
  rewrite andb_false_r.
  destruct (Z.ltb_spec (Z.of_nat (length l)) 0) as [Hneg | _]; [lia |].
  now rewrite andb_false_r.
Qed.

Lemma next_index (self : MPVService) :
  index (final (next self)) =
  if index self + 1 >? Z.of_nat (length (tracks self)) then 0
  else index self + 1.
Proof.
  destruct self as [ts i p].
  unfold next, play, bind, get, modify, ret, raise; cbn.
  destruct (i + 1 >? Z.of_nat (length ts)); cbn;
    destruct (Z.of_nat (length ts) =? 0); cbn; try reflexivity.
  - destruct (getitem ts 0); reflexivity.
  - destruct (getitem ts (i + 1)); reflexivity.
Qed.

(** C9: with the index on the last track, [next] leaves the index equal
    to the length of the track list, a position at which [play] cannot
    index the list (it raises [IndexError] after stopping the player);
    the index goes back to 0 only when the incremented index is strictly
    greater than the length. *)
Theorem next_runs_past_the_last_track (self : MPVService) :
  tracks self <> [] ->
  index self = Z.of_nat (length (tracks self)) - 1 ->
  index (final (next self)) = Z.of_nat (length (tracks self))
  /\ getitem (tracks self) (index (final (next self))) = None
  /\ next self
     = Raise IndexError
         (call_player player_stop
            (set_index (Z.of_nat (length (tracks self))) self))
  /\ (forall other : MPVService,
        index (final (next other)) =
        if index other + 1 >? Z.of_nat (length (tracks other)) then 0
        else index other + 1).
Proof.
  intros Hne Hlast.
  assert (Hstep : index self + 1 = Z.of_nat (length (tracks self))) by lia.
  assert (Hrun : next self
                 = Raise IndexError
                     (call_player player_stop
                        (set_index (Z.of_nat (length (tracks self))) self))).
  { destruct self as [ts i p]; cbn in *.
    unfold next, play, bind, get, modify, ret, raise; cbn.
    rewrite Hstep.
    destruct (Z.gtb_spec (Z.of_nat (length ts)) (Z.of_nat (length ts)));
      [lia |]; cbn.
    destruct (Z.eqb_spec (Z.of_nat (length ts)) 0) as [H0 | _].
    - destruct ts; [congruence | cbn in H0; lia].
    - cbn. now rewrite getitem_at_length. }
  rewrite Hrun.
  split; [reflexivity |].
  split; [apply getitem_at_length |].
  split; [reflexivity | apply next_index].
Qed.

Lemma next_runs_past_the_last_track_witness :
  index (final (next {| tracks := ["a.mp3"; "b.mp3"]%string; index := 1;
                        player := [] |})) = 2.
Proof.
  refine (proj1 (next_runs_past_the_last_track
                   {| tracks := ["a.mp3"; "b.mp3"]%string; index := 1;
                      player := [] |} _ _)).
  - discriminate.
  - reflexivity.
Defined.

End MpvFacts.

(** ** The utterance splitter *)

Section SplitterFacts.
Import Re.
Local Open Scope char_scope.




End SplitterFacts.

(** ** The cache curator *)

Section CuratorFacts.
Import Py Util.

(** C7: when the thresholds are not breached, that is unless the free
    percentage is below [min_free_percent] and the free bytes are below
    [min_free_disk] megabytes, [curate_cache] returns at once and leaves
    the system as it was: the same files, nothing unlinked. *)
Theorem curate_cache_noop_above_thresholds
    (directory : string) (min_free_percent : float) (min_free_disk : Z)
    (w : os) :
  ~ ((percent_free (usage w) <? min_free_percent)%float = true
     /\ free (usage w) < min_free_disk * (1024 * 1024)) ->
  curate_cache directory min_free_percent min_free_disk w = Return tt w
  /\ files (final (curate_cache directory min_free_percent min_free_disk w))
     = files w
  /\ unlinked (final (curate_cache directory min_free_percent min_free_disk w))
     = unlinked w.
Proof.
  intros Hok.
  assert (Hrun : curate_cache directory min_free_percent min_free_disk w
                 = Return tt w).
  { unfold curate_cache, bind, get, ret.
    replace (low_diskspace (usage w) min_free_percent
               (min_free_disk * (1024 * 1024))) with false; [reflexivity |].
    symmetry. unfold low_diskspace. apply andb_false_iff.
    destruct (percent_free (usage w) <? min_free_percent)%float;
      [right | now left].
    apply Z.ltb_ge.
    destruct (Z.lt_ge_cases (free (usage w)) (min_free_disk * (1024 * 1024)));
      [exfalso; apply Hok; now split | lia]. }
  rewrite Hrun. repeat split.
Qed.

Lemma strip_prefix_app (p s r : string) :
  strip_prefix p s = Some r -> s = (p ++ r)%string.
Proof.
  revert s. induction p as [| a p IH]; intros s H.
  - cbn in H. now injection H as ->.
  - destruct s as [| b s]; cbn in H; [discriminate |].
    destruct (Ascii.eqb_spec a b) as [-> |]; [| discriminate].
    change (String b s = String b (p ++ r)%string).
    f_equal. now apply IH.
Qed.

Lemma append_empty_r (s : string) : (s ++ "")%string = s.
Proof.
  induction s as [| c s IH]; [reflexivity |].
  change (String c (s ++ "")%string = String c s). now rewrite IH.
Qed.

Lemma append_assoc (a b c : string) :
  ((a ++ b) ++ c)%string = (a ++ (b ++ c))%string.
Proof.
  induction a as [| x a IH]; [reflexivity |].
  change (String x ((a ++ b) ++ c)%string = String x (a ++ (b ++ c))%string).
  now rewrite IH.
Qed.

Lemma has_sep_start (name : string) :
  has_sep name = false -> starts_with_sep name = false.
Proof.
  destruct name as [| c name]; cbn; [reflexivity |].
  intros H. now apply orb_false_iff in H as [Hc _].
Qed.

Lemma child_name_join (directory path name : string) :
  child_name directory path = Some name ->
  os_path_join directory name = path.
Proof.
  unfold child_name.
  destruct (strip_prefix _ path) as [r |] eqn:Hstrip; [| discriminate].
  destruct ((r =? "")%string || has_sep r) eqn:Hr; [discriminate |].
  intros [= ->]. apply orb_false_iff in Hr as [_ Hsep].
  apply strip_prefix_app in Hstrip. subst path.
  unfold os_path_join. rewrite (has_sep_start _ Hsep). cbn.
  destruct ((directory =? "")%string || ends_with_sep directory).
  - now rewrite append_empty_r.
  - now rewrite !append_assoc.
Qed.

Lemma listed_paths (directory : string) (ks : list string) :
  os_path_join directory <$> omap (child_name directory) ks
  = filter (fun p => is_Some (child_name directory p)) ks.
Proof.
  induction ks as [| k ks IH]; [reflexivity |].
  destruct (child_name directory k) as [name |] eqn:Hk.
  - rewrite filter_cons_True by (rewrite Hk; eauto).
    rewrite <- IH. cbn. rewrite Hk. cbn. f_equal. now apply child_name_join.
  - rewrite filter_cons_False by (rewrite Hk; apply is_Some_None).
    rewrite <- IH. cbn. now rewrite Hk.
Qed.

Lemma os_stat_run (w : os) (path : string) (i : inode) :
  files w !! path = Some i ->
  os_stat path w
  = if returns (os_stat path w) then Return i w else Raise OSError w.
Proof.
  intros Hi. unfold os_stat. rewrite Hi.
  now destruct (bool_decide (path ∈ dangling w)).
Qed.

Lemma stat_all (w : os) (kvs : list (string * inode)) (P : string -> Prop)
    `{!forall p, Decision (P p)} :
  Forall (fun kv => files w !! kv.1 = Some kv.2) kvs ->
  forallb (fun path => returns (os_stat path w)) (filter P kvs.*1) = true ->
  mapM (fun path => st <- os_stat path ;; ret (st, path))%py
       (filter P kvs.*1) w
  = Return (omap (fun kv => if decide (P kv.1) then Some (kv.2, kv.1)
                            else None) kvs) w.
Proof.
  induction 1 as [| [k i] kvs Hk _ IH]; intros Hall; [reflexivity |].
  cbn [fmap list_fmap fst snd] in *.
  destruct (decide (P k)) as [HP | HP].
  - rewrite filter_cons_True in Hall |- * by assumption.
    cbn [forallb] in Hall. apply andb_true_iff in Hall as [Hstat Hall].
    cbn [mapM]. unfold bind at 1. unfold bind at 1.
    rewrite (os_stat_run w k i Hk), Hstat.
    unfold ret at 1. unfold bind at 1. rewrite (IH Hall).
    cbn. destruct (decide (P k)); [reflexivity | contradiction].
  - rewrite filter_cons_False in Hall |- * by assumption. rewrite (IH Hall).
    cbn. destruct (decide (P k)); [contradiction | reflexivity].
Qed.

Lemma stat_fails (w : os) (paths : list string) :
  forallb (fun path => returns (os_stat path w)) paths = false ->
  mapM (fun path => st <- os_stat path ;; ret (st, path))%py paths w
  = Raise OSError w.
Proof.
  induction paths as [| path paths IH]; intros Hall; [discriminate |].
  cbn [forallb] in Hall. cbn [mapM]. unfold bind at 1. unfold bind at 1.
  unfold os_stat at 1. unfold os_stat at 1 in Hall.
  destruct (bool_decide (path ∈ dangling w)); [reflexivity |].
  destruct (files w !! path) as [i |]; [| reflexivity].
  cbn [returns andb] in Hall. unfold ret at 1. unfold bind at 1.
  now rewrite (IH Hall).
Qed.

Lemma regular_entries_run (directory : string) (w : os) :
  regular_entries directory w
  = if readable directory w then Return (regular_in directory w) w
    else Raise OSError w.
Proof.
  unfold regular_entries, readable, os_listdir.
  unfold bind at 1.
  destruct (bool_decide (directory ∈ listable w)); [| reflexivity].
  cbn [returns andb].
  destruct (forallb _ _) eqn:Hall.
  2:{ unfold bind at 1. now rewrite stat_fails. }
  unfold names_in in *. rewrite listed_paths in Hall |- *.
  unfold bind at 1.
  rewrite (stat_all w (map_to_list (files w))
             (fun p => is_Some (child_name directory p))).
  2:{ apply Forall_forall. intros [k i] Hin. now apply elem_of_map_to_list. }
  2:{ exact Hall. }
  unfold ret, regular_in. f_equal.
  clear Hall.
  induction (map_to_list (files w)) as [| [k i] kvs IH]; [reflexivity |].
  cbn [omap list_omap fst snd].
  destruct (decide (is_Some (child_name directory k))) as [Hk | Hk].
  - rewrite (bool_decide_eq_true_2 _ Hk). cbn [andb].
    destruct (S_ISREG (st_mode i)) eqn:Hreg.
    + rewrite filter_cons_True by exact Hreg.
      rewrite fmap_cons. now rewrite IH.
    + rewrite filter_cons_False by (cbn; congruence). apply IH.
  - rewrite (bool_decide_eq_false_2 _ Hk). cbn [andb]. apply IH.
Qed.

Lemma regular_in_spec (directory : string) (w : os) (e : entry) :
  e ∈ regular_in directory w <->
  exists st, files w !! path_of e = Some st
             /\ is_Some (child_name directory (path_of e))
             /\ S_ISREG (st_mode st) = true
             /\ mtime_of e = st_mtime st /\ size_of e = st_size st.
Proof.
  unfold regular_in. rewrite list_elem_of_omap. split.
  - intros [[k i] [Hin Hsome]]. apply elem_of_map_to_list in Hin.
    destruct (bool_decide (is_Some (child_name directory k))) eqn:Hk;
      [| discriminate].
    destruct (S_ISREG (st_mode i)) eqn:Hreg; [| discriminate].
    cbn in Hsome. injection Hsome as <-. exists i. cbn.
    apply bool_decide_eq_true_1 in Hk. auto.
  - intros (st & Hst & Hk & Hreg & Hm & Hs).
    exists (path_of e, st). split; [now apply elem_of_map_to_list |].
    rewrite (bool_decide_eq_true_2 _ Hk), Hreg. cbn.
    destruct e as [[m sz] p]. cbn in *. now subst.
Qed.

Lemma regular_in_NoDup (directory : string) (w : os) :
  NoDup (path_of <$> regular_in directory w).
Proof.
  unfold regular_in.
  pose proof (NoDup_fst_map_to_list (files w)) as Hnd.
  induction (map_to_list (files w)) as [| [k i] kvs IH]; [constructor |].
  cbn in Hnd. apply NoDup_cons in Hnd as [Hk Hnd].
  cbn [omap list_omap].
  destruct (bool_decide _ && _); [| now apply IH].
  rewrite fmap_cons. apply NoDup_cons. split; [| now apply IH].
  cbn. intros Hin. apply Hk.
  apply list_elem_of_fmap in Hin as [e [-> He]].
  apply list_elem_of_omap in He as [[k' i'] [Hin' Hsome]].
  destruct (bool_decide _ && _); [| discriminate].
  injection Hsome as <-. cbn.
  apply list_elem_of_fmap. now exists (k', i').
Qed.

Global Instance entry_le_total : Total entry_le.
Proof.
  intros [[m1 s1] p1] [[m2 s2] p2]. unfold entry_le, entry_leb.
  destruct (Z.ltb_spec m1 m2), (Z.ltb_spec m2 m1); cbn; auto; try lia.
  assert (m1 = m2) as -> by lia. rewrite Z.eqb_refl. cbn.
  destruct (Z.ltb_spec s1 s2), (Z.ltb_spec s2 s1); cbn; auto; try lia.
  assert (s1 = s2) as -> by lia. rewrite Z.eqb_refl. cbn.
  destruct (String.leb_total p1 p2) as [-> | ->]; cbn; auto.
Qed.

Lemma entry_le_mtime (x y : entry) : entry_le x y -> mtime_of x <= mtime_of y.
Proof.
  destruct x as [[m1 s1] p1], y as [[m2 s2] p2].
  unfold entry_le, entry_leb, mtime_of. cbn.
  destruct (Z.ltb_spec m1 m2); [lia |].
  destruct (Z.eqb_spec m1 m2); [lia | cbn; tauto].
Qed.

Lemma sorted_ascending (entries : list entry) :
  Sorted entry_le (sorted entries)
  /\ StronglySorted Z.le (mtime_of <$> sorted entries)
  /\ sorted entries ≡ₚ entries.
Proof.
  assert (Hs : Sorted entry_le (sorted entries))
    by apply (Sorted_merge_sort entry_le).
  split; [exact Hs |]. split; [| apply merge_sort_Permutation].
  apply Sorted_StronglySorted; [apply _ |].
  eapply Sorted_fmap; [| exact Hs]. apply entry_le_mtime.
Qed.

Lemma os_remove_run (w : os) (e : entry) :
  os_remove (path_of e) w
  = if removable w e then Return tt (unlink_all [path_of e] w)
    else Raise OSError w.
Proof.
  unfold removable, os_remove, unlink_all.
  destruct (files w !! path_of e) as [i |]; [| reflexivity].
  destruct (refused i || S_ISDIR (st_mode i)); reflexivity.
Qed.

Lemma removable_unlink (w : os) (p : string) (e : entry) :
  p <> path_of e -> removable (unlink_all [p] w) e = removable w e.
Proof.
  intros Hne. unfold removable, os_remove, unlink_all. cbn [files foldl].
  rewrite lookup_delete_ne by exact Hne.
  destruct (files w !! path_of e) as [i |]; [| reflexivity].
  destruct (refused i || S_ISDIR (st_mode i)); reflexivity.
Qed.

Lemma freed_cons (w : os) (e : entry) (l : list entry) :
  freed w (e :: l)
  = if removable w e then size_of e + freed w l else freed w l.
Proof. reflexivity. Qed.

Lemma removable_unlink_all (w : os) (p : string) (l : list entry) :
  p ∉ path_of <$> l ->
  filter (fun e => removable (unlink_all [p] w) e = true) l
  = filter (fun e => removable w e = true) l
  /\ forall k, freed (unlink_all [p] w) (take k l) = freed w (take k l).
Proof.
  induction l as [| e l IH]; intros Hnot.
  - split; [reflexivity | intros k; now rewrite take_nil].
  - rewrite fmap_cons in Hnot. apply not_elem_of_cons in Hnot as [Hne Hnot].
    destruct (IH Hnot) as [IHf IHk].
    pose proof (removable_unlink w p e Hne) as He. split.
    + destruct (removable w e) eqn:Hr.
      * rewrite !filter_cons_True by congruence. now rewrite IHf.
      * rewrite !filter_cons_False by congruence. exact IHf.
    + intros [| k]; [reflexivity |].
      rewrite firstn_cons, !freed_cons. now rewrite He, IHk.
Qed.

Lemma unlink_all_nil (w : os) : unlink_all [] w = w.
Proof. destruct w. unfold unlink_all. cbn. now rewrite app_nil_r. Qed.

Lemma unlink_all_cons (p : string) (ps : list string) (w : os) :
  unlink_all ps (unlink_all [p] w) = unlink_all (p :: ps) w.
Proof. unfold unlink_all. cbn. now rewrite <- app_assoc. Qed.

Lemma freed_take_all (w : os) (l : list entry) :
  freed w (take (length l) l) = freed w l.
Proof. rewrite take_ge; [reflexivity | lia]. Qed.

Lemma sweep_run (b : Z) (entries : list entry) :
  forall (space_freed : Z) (w : os),
    NoDup (path_of <$> entries) ->
    exists done rest,
      entries = done ++ rest
      /\ sweep b entries space_freed w
         = Return tt
             (unlink_all
                (path_of <$> filter (fun e => removable w e = true) done) w)
      /\ (entries <> [] -> done <> [])
      /\ (forall k, (0 < k < length done)%nat ->
                    space_freed + freed w (take k done) <= b)
      /\ (rest <> [] -> space_freed + freed w done > b).
Proof.
  induction entries as [| e l IH]; intros space_freed w Hnd.
  - exists [], []. rewrite unlink_all_nil.
    repeat split; try congruence. cbn. intros k Hk. lia.
  - rewrite fmap_cons in Hnd. apply NoDup_cons in Hnd as [Hp Hnd].
    destruct e as [[m sz] p]. cbn [sweep].
    unfold bind at 1. unfold except_pass. unfold bind at 1.
    change (os_remove p w) with (os_remove (path_of (m, sz, p)) w).
    rewrite os_remove_run.
    destruct (removable w (m, sz, p)) eqn:Hr.
    + cbn [ret]. 
      destruct (Z.gtb_spec (space_freed + sz) b) as [Hgt | Hle].
      * exists [(m, sz, p)], l. rewrite filter_cons_True by exact Hr.
        repeat split; try congruence.
        -- cbn. intros k Hk. lia.
        -- intros _. rewrite freed_cons, Hr. unfold size_of. cbn. lia.
      * destruct (IH (space_freed + sz) (unlink_all [path_of (m, sz, p)] w) Hnd)
          as (done & rest & Hsplit & Hrun & _ & Hbound & Hstop).
        destruct (removable_unlink_all w (path_of (m, sz, p)) l Hp)
          as [_ Hk0].
        assert (Hp' : path_of (m, sz, p) ∉ path_of <$> done).
        { intros Hin. apply Hp. subst l. rewrite fmap_app.
          apply elem_of_app. now left. }
        destruct (removable_unlink_all w (path_of (m, sz, p)) done Hp')
          as [Hf Hk].
        exists ((m, sz, p) :: done), rest.
        rewrite filter_cons_True by exact Hr.
        rewrite fmap_cons, Hrun, Hf, unlink_all_cons.
        split; [now rewrite Hsplit |]. split; [reflexivity |].
        split; [congruence |]. split.
        -- intros [| k] Hlen; [lia |]. cbn in Hlen.
           rewrite firstn_cons, freed_cons, Hr. unfold size_of at 1.
           cbn [fst snd]. destruct k as [| k].
           ++ rewrite take_0. cbn. lia.
           ++ specialize (Hbound (S k) ltac:(lia)). rewrite Hk in Hbound.
              unfold entry in *. lia.
        -- intros Hrest. specialize (Hstop Hrest).
           rewrite <- freed_take_all, Hk, freed_take_all in Hstop.
           rewrite freed_cons, Hr. unfold size_of at 1. cbn [fst snd]. lia.
    + cbn [ret].
      destruct (Z.gtb_spec space_freed b) as [Hgt | Hle].
      * exists [(m, sz, p)], l. rewrite filter_cons_False by congruence.
        rewrite filter_nil, fmap_nil, unlink_all_nil.
        repeat split; try congruence.
        -- cbn. intros k Hk. lia.
        -- intros _. rewrite freed_cons, Hr. cbn. lia.
      * destruct (IH space_freed w Hnd)
          as (done & rest & Hsplit & Hrun & _ & Hbound & Hstop).
        exists ((m, sz, p) :: done), rest.
        rewrite filter_cons_False by congruence.
        split; [now rewrite Hsplit |]. split; [exact Hrun |].
        split; [congruence |]. split.
        -- intros [| k] Hlen; [lia |]. cbn in Hlen.
           rewrite firstn_cons, freed_cons, Hr. destruct k as [| k].
           ++ rewrite take_0. cbn. lia.
           ++ specialize (Hbound (S k) ltac:(lia)). unfold entry in *. lia.
        -- intros Hrest. specialize (Hstop Hrest).
           rewrite freed_cons, Hr. lia.
Qed.

Lemma sweep_total (b : Z) (entries : list entry) :
  forall (space_freed : Z) (w : os),
    exists w', sweep b entries space_freed w = Return tt w'.
Proof.
  induction entries as [| [[m sz] p] l IH]; intros space_freed w.
  - now exists w.
  - cbn [sweep]. unfold bind at 1. unfold except_pass. unfold bind at 1.
    destruct (os_remove p w) as [[] w' | e w' | w'] eqn:Hrm.
    + cbn [ret]. destruct (space_freed + sz >? b); [now exists w' | apply IH].
    + destruct (space_freed >? b); [now exists w' | apply IH].
    + unfold os_remove in Hrm. destruct (files w !! p) as [i |];
        [destruct (refused i || S_ISDIR (st_mode i)) |]; discriminate.
Qed.

Lemma names_in_there (directory : string) (w : os) (name : string) :
  name ∈ names_in directory w ->
  is_Some (files w !! os_path_join directory name).
Proof.
  unfold names_in. intros H.
  apply list_elem_of_omap in H as (k & Hk & Hname).
  apply list_elem_of_fmap in Hk as ([k' i] & -> & Hin).
  apply elem_of_map_to_list in Hin. cbn in Hname.
  rewrite (child_name_join _ _ _ Hname). now exists i.
Qed.

Lemma os_stat_returns (w : os) (path : string) :
  returns (os_stat path w) = true
  <-> (path ∉ dangling w) /\ is_Some (files w !! path).
Proof.
  unfold os_stat.
  destruct (bool_decide_reflect (path ∈ dangling w)) as [Hd | Hd].
  - cbn. split; [discriminate | tauto].
  - destruct (files w !! path) as [i |]; cbn.
    + split; [eauto | reflexivity].
    + split; [discriminate |]. intros [_ [i Hi]]. discriminate.
Qed.

Lemma readable_spec (directory : string) (w : os) :
  readable directory w = true
  <-> directory ∈ listable w
      /\ forall name, name ∈ names_in directory w ->
                      os_path_join directory name ∉ dangling w.
Proof.
  unfold readable, os_listdir.
  rewrite andb_true_iff, forallb_forall.
  destruct (bool_decide_reflect (directory ∈ listable w)) as [Hl | Hl];
    cbn [returns].
  - split.
    + intros [_ Hall]. split; [exact Hl |]. intros name Hname.
      apply (os_stat_returns w), Hall, list_elem_of_In, list_elem_of_fmap.
      now exists name.
    + intros [_ Hall]. split; [reflexivity |]. intros path Hin.
      apply list_elem_of_In, list_elem_of_fmap in Hin as (name & -> & Hname).
      apply os_stat_returns. split; [now apply Hall |].
      now apply names_in_there.
  - split; [intros [H _]; discriminate | tauto].
Qed.

Lemma curate_cache_run (directory : string) (min_free_percent : float)
    (min_free_disk : Z) (w : os) :
  curate_cache directory min_free_percent min_free_disk w
  = if low_diskspace (usage w) min_free_percent
         (min_free_disk * (1024 * 1024))
    then match bytes_needed (usage w) min_free_percent with
         | inl e => Raise e w
         | inr b =>
             if readable directory w
             then sweep b (sorted (regular_in directory w)) 0 w
             else Raise OSError w
         end
    else Return tt w.
Proof.
  unfold curate_cache, bind, get.
  destruct (low_diskspace _ _ _); [| reflexivity].
  destruct (bytes_needed _ _); [reflexivity |].
  rewrite regular_entries_run. now destruct (readable directory w).
Qed.

(** C2, as amended: when the free space is below both thresholds, the
    directory can be listed and each of its entries stat'ed, the sweep
    takes the regular files that lie directly in the directory in
    ascending order of modification time (ties by size, then path),
    unlinks each one it can, and goes on until the cumulative size of
    the files unlinked exceeds
    [bytes_needed = int((min_free_percent - percent_free) / 100 * total + 1)];
    it stops at once then: [done] is the part of the sorted list that
    it went through, [rest] the part it never touched.  When
    [os.listdir] fails on the directory, or [os.stat] on one of its
    entries, the call raises [OSError] and has unlinked nothing;
    [readable] says that neither fails. *)
Theorem curate_cache_sweeps_oldest_first
    (directory : string) (min_free_percent : float) (min_free_disk : Z)
    (w : os) (b : Z) :
  (percent_free (usage w) <? min_free_percent)%float = true ->
  free (usage w) < min_free_disk * (1024 * 1024) ->
  bytes_needed (usage w) min_free_percent = inr b ->
  (readable directory w = true
   <-> directory ∈ listable w
       /\ forall name, name ∈ names_in directory w ->
                       os_path_join directory name ∉ dangling w)
  /\ (readable directory w = false ->
      curate_cache directory min_free_percent min_free_disk w
      = Raise OSError w)
  /\ (readable directory w = true ->
      exists done rest,
        sorted (regular_in directory w) = done ++ rest
        /\ curate_cache directory min_free_percent min_free_disk w
           = Return tt
               (unlink_all
                  (path_of <$> filter (fun e => removable w e = true) done)
                  w)
        /\ (regular_in directory w <> [] -> done <> [])
        /\ (forall k, (0 < k < length done)%nat ->
                      freed w (take k done) <= b)
        /\ (rest <> [] -> freed w done > b)
        /\ StronglySorted Z.le (mtime_of <$> sorted (regular_in directory w))
        /\ Sorted entry_le (sorted (regular_in directory w))
        /\ sorted (regular_in directory w) ≡ₚ regular_in directory w
        /\ (forall e, e ∈ regular_in directory w <->
              exists st, files w !! path_of e = Some st
                         /\ is_Some (child_name directory (path_of e))
                         /\ S_ISREG (st_mode st) = true
                         /\ mtime_of e = st_mtime st
                         /\ size_of e = st_size st)).
Proof.
  intros Hpercent Hfree Hneeded.
  assert (Hrun0 : curate_cache directory min_free_percent min_free_disk w
                  = if readable directory w
                    then sweep b (sorted (regular_in directory w)) 0 w
                    else Raise OSError w).
  { rewrite curate_cache_run. unfold low_diskspace. rewrite Hpercent.
    replace (free (usage w) <? min_free_disk * (1024 * 1024)) with true
      by (symmetry; now apply Z.ltb_lt).
    cbn [andb]. now rewrite Hneeded. }
  split; [apply readable_spec |].
  split; [intros Hread; now rewrite Hrun0, Hread |].
  intros Hread. rewrite Hread in Hrun0.
  destruct (sorted_ascending (regular_in directory w))
    as (Hlex & Hasc & Hperm).
  assert (Hnd : NoDup (path_of <$> sorted (regular_in directory w))).
  { rewrite Hperm. apply regular_in_NoDup. }
  destruct (sweep_run b _ 0 w Hnd)
    as (done & rest & Hsplit & Hrun & Hne & Hbound & Hstop).
  exists done, rest. split; [exact Hsplit |]. split.
  { now rewrite Hrun0. }
  split.
  { intros Hsome. apply Hne. intros Hnil. apply Hsome.
    apply Permutation_nil_r. now rewrite <- Hnil, Hperm. }
  split; [intros k Hk; specialize (Hbound k Hk); lia |].
  split; [intros Hrest; specialize (Hstop Hrest); lia |].
  split; [exact Hasc |]. split; [exact Hlex |]. split; [exact Hperm |].
  apply regular_in_spec.
Qed.

Lemma curate_cache_sweeps_oldest_first_witness :
  exists done rest,
    sorted (regular_in "/cache" small_cache) = done ++ rest
    /\ curate_cache "/cache" 5 50 small_cache
       = Return tt
           (unlink_all
              (path_of <$>
               filter (fun e => removable small_cache e = true) done)
              small_cache)
    /\ (forall k, (0 < k < length done)%nat ->
                  freed small_cache (take k done) <= 20000001)
    /\ (rest <> [] -> freed small_cache done > 20000001).
Proof.
  destruct (curate_cache_sweeps_oldest_first "/cache" 5 50 small_cache
              20000001) as (_ & _ & Hsweep).
  - vm_compute. reflexivity.
  - vm_compute. reflexivity.
  - vm_compute. reflexivity.
  - destruct Hsweep as (done & rest & H1 & H2 & _ & H3 & H4 & _).
    + vm_compute. reflexivity.
    + exists done, rest. auto.
Defined.

(** C2 as stated fails: with 3% free of 10^9 bytes and a 5% target the
    stated amount is 20000000 bytes; the oldest file frees 20000001
    bytes, which exceeds it, and the sweep still unlinks the next file,
    since the amount it compares with is 20000001. *)
Lemma curate_cache_deletes_past_stated_amount :
  low_diskspace (usage small_cache) 5 (50 * (1024 * 1024)) = true
  /\ stated_bytes_needed (usage small_cache) 5 = 20000000%float
  /\ sorted (regular_in "/cache" small_cache)
     = [(100, 20000001, "/cache/a"%string); (200, 5000, "/cache/b"%string);
        (300, 7000, "/cache/c"%string)]
  /\ freed small_cache [(100, 20000001, "/cache/a"%string)] = 20000001
  /\ (stated_bytes_needed (usage small_cache) 5
      <? float_of_int 20000001)%float = true
  /\ unlinked (final (curate_cache "/cache" 5 50 small_cache))
     = ["/cache/a"; "/cache/b"]%string.
Proof. vm_compute. repeat split. Qed.

Example curate_cache_unreadable :
  curate_cache "/cache/missing" 5 50 small_cache = Raise OSError small_cache
  /\ curate_cache "/cache" 5 50 stale_cache = Raise OSError stale_cache.
Proof. vm_compute. repeat split. Qed.

Lemma curate_cache_noop_above_thresholds_witness :
  curate_cache "/cache" 2 50 small_cache = Return tt small_cache.
Proof.
  refine (proj1 (curate_cache_noop_above_thresholds "/cache" 2 50
                   small_cache _)).
  intros [Hpercent _]. vm_compute in Hpercent. discriminate.
Defined.

(** C8: a removal that fails raises nothing and adds nothing to the
    bytes freed: the sweep goes on with the remaining entries from the
    same count and the same files; no sweep ever raises.  A removal
    fails in particular when the path is gone, removed by someone else
    since it was listed, and when the system refuses to unlink it. *)
Theorem failed_removal_is_skipped
    (b m sz : Z) (p : string) (rest : list entry) (space_freed : Z) (w : os) :
  returns (os_remove p w) = false ->
  space_freed <= b ->
  sweep b ((m, sz, p) :: rest) space_freed w = sweep b rest space_freed w
  /\ freed w ((m, sz, p) :: rest) = freed w rest
  /\ (forall entries freed0 w0,
        exists w', sweep b entries freed0 w0 = Return tt w')
  /\ (forall w0 p0, files w0 !! p0 = None ->
                    returns (os_remove p0 w0) = false)
  /\ (forall w0 p0 i, files w0 !! p0 = Some i -> refused i = true ->
                      returns (os_remove p0 w0) = false).
Proof.
  intros Hfail Hinv.
  assert (Hr : removable w (m, sz, p) = false) by exact Hfail.
  split; [| split; [| split; [| split]]].
  - cbn [sweep]. unfold bind at 1. unfold except_pass. unfold bind at 1.
    change (os_remove p w) with (os_remove (path_of (m, sz, p)) w).
    rewrite os_remove_run, Hr.
    destruct (Z.gtb_spec space_freed b); [lia | reflexivity].
  - now rewrite freed_cons, Hr.
  - intros entries freed0 w0. apply sweep_total.
  - intros w0 p0 Hgone. unfold os_remove. now rewrite Hgone.
  - intros w0 p0 i Hthere Hrefused. unfold os_remove.
    now rewrite Hthere, Hrefused.
Qed.

Lemma failed_removal_is_skipped_witness :
  sweep 20000001
    [(100, 20000001, "/cache/a"%string); (200, 5000, "/cache/b"%string)] 0
    locked_cache
  = sweep 20000001 [(200, 5000, "/cache/b"%string)] 0 locked_cache.
Proof.
  refine (proj1 (failed_removal_is_skipped 20000001 100 20000001 "/cache/a"
                   [(200, 5000, "/cache/b"%string)] 0 locked_cache _ _)).
  - vm_compute. reflexivity.
  - lia.
Defined.

End CuratorFacts.

(** ** The speech handlers *)

Section SpeechFacts.
Import Py Speech.

Variable hash : string -> Z.

Lemma swaps_snoc (tr : list event) (ev : event) :
  swaps (tr ++ [ev]) = swaps tr ++ (if swap_event ev then [ev] else []).
Proof. unfold swaps. rewrite List.filter_app. reflexivity. Qed.

Lemma executed_snoc (tr : list event) (ev : event) :
  executed (tr ++ [ev])
  = executed tr ++ match ev with
                   | tts_execute _ u _ => [u]
                   | _ => []
                   end.
Proof. unfold executed. rewrite omap_app. now destruct ev. Qed.

Lemma releases_snoc (tr : list event) (ev : event) :
  releases (tr ++ [ev])
  = (releases tr + match ev with lock_release => 1 | _ => 0 end)%nat.
Proof.
  unfold releases. rewrite List.filter_app, length_app. now destruct ev.
Qed.

(** C10: while the speech flag is false, [mute_and_speak] returns as
    soon as it has logged the utterance, before the fingerprint test:
    the engine is not called, no engine is stopped, joined, made or
    initialised, the engine and the recorded fingerprint stay as they
    were, and the lock is neither released nor touched. *)
Theorem mute_and_speak_disabled_is_inert
    (utterance ident : string) (mute : bool) (s : state) :
  speak_flag s = false ->
  mute_and_speak hash utterance ident mute s
  = Return tt (record (log_info ("Speak: " ++ utterance)) s)
  /\ executed (trace (final (mute_and_speak hash utterance ident mute s)))
     = executed (trace s)
  /\ swaps (trace (final (mute_and_speak hash utterance ident mute s)))
     = swaps (trace s)
  /\ tts (final (mute_and_speak hash utterance ident mute s)) = tts s
  /\ tts_hash (final (mute_and_speak hash utterance ident mute s))
     = tts_hash s
  /\ releases (trace (final (mute_and_speak hash utterance ident mute s)))
     = releases (trace s)
  /\ lock (final (mute_and_speak hash utterance ident mute s)) = lock s.
Proof.
  intros Hoff.
  assert (Hrun : mute_and_speak hash utterance ident mute s
                 = Return tt (record (log_info ("Speak: " ++ utterance)) s)).
  { unfold mute_and_speak, bind, call, modify, get. cbn. now rewrite Hoff. }
  rewrite Hrun. cbn [final record trace tts tts_hash lock].
  rewrite swaps_snoc, executed_snoc, releases_snoc. cbn.
  rewrite !app_nil_r, Nat.add_0_r. repeat split.
Qed.


Lemma mute_and_speak_enabled_run
    (utterance ident : string) (mute : bool) (s : state) :
  speak_flag s = true ->
  mute_and_speak hash utterance ident mute s
  = try_execute utterance ident mute (prepared hash utterance s).
Proof.
  intros Hon.
  unfold mute_and_speak, prepared.
  unfold bind at 1. unfold call at 1. unfold modify at 1.
  unfold bind at 1. unfold get at 1.
  cbn [speak_flag record]. rewrite Hon. cbn [negb].
  unfold bind at 1.
  cbn [tts_hash config record].
  destruct (py_ne (tts_hash s) (fingerprint hash (config s))); reflexivity.
Qed.


Lemma same_globals_refl (s : state) : same_globals s s.
Proof. unfold same_globals. repeat split. Qed.

Lemma same_globals_trans (s1 s2 s3 : state) :
  same_globals s1 s2 -> same_globals s2 s3 -> same_globals s1 s3.
Proof. unfold same_globals. intuition congruence. Qed.

Lemma frame_refl (keep : event -> bool) (s : state) : frame keep s s.
Proof. split; [reflexivity | apply same_globals_refl]. Qed.

Lemma frame_trans (keep : event -> bool) (s1 s2 s3 : state) :
  frame keep s1 s2 -> frame keep s2 s3 -> frame keep s1 s3.
Proof.
  intros [H12 G12] [H23 G23]. split; [congruence |].
  eapply same_globals_trans; eassumption.
Qed.


Lemma frame_finally {A} (keep : event -> bool) (body : M state A)
    (fin : M state unit) (s : state) :
  frame keep s (final (body s)) ->
  (forall s1, frame keep s1 (final (fin s1))) ->
  frame keep s (final (finally body fin s)).
Proof.
  intros Hbody Hfin. unfold finally.
  destruct (body s) as [a s1 | e s1 | s1]; cbn in Hbody; try exact Hbody.
  - eapply frame_trans; [exact Hbody |].
    specialize (Hfin s1). now destruct (fin s1).
  - eapply frame_trans; [exact Hbody |].
    specialize (Hfin s1). now destruct (fin s1).
Qed.

Lemma frame_record (keep : event -> bool) (ev : event) (s : state) :
  keep ev = false -> frame keep s (record ev s).
Proof.
  intros Hev. split; [| unfold same_globals; repeat split].
  cbn. rewrite List.filter_app. cbn. rewrite Hev. apply app_nil_r.
Qed.


Lemma frame_set_lock (keep : event -> bool) (b : bool) (s : state) :
  frame keep s (set_lock b s).
Proof. split; [reflexivity | unfold same_globals; repeat split]. Qed.

Lemma frame_acquire (keep : event -> bool) (s : state) :
  keep lock_acquire = false -> frame keep s (final (acquire s)).
Proof.
  intros Hev. unfold acquire. destruct (lock s); [apply frame_refl |].
  cbn [final]. eapply frame_trans; [apply frame_set_lock |].
  now apply frame_record.
Qed.


Lemma frame_execute (keep : event -> bool) (u i : string) (s : state) :
  keep (tts_execute (tts s) u i) = false ->
  frame keep s (final (execute u i s)).
Proof.
  intros Hev. unfold execute, bind, call, modify, get, raise, ret. cbn.
  destruct (failing s u); cbn [final]; now apply frame_record.
Qed.


Lemma prepared_trace (u : string) (s : state) :
  trace (prepared hash u s)
  = trace s ++ log_info ("Speak: " ++ u)
      :: (if py_ne (tts_hash s) (fingerprint hash (config s))
          then swap_cycle (tts s) (engines s) else []).
Proof.
  unfold prepared.
  destruct (py_ne (tts_hash s) (fingerprint hash (config s))); cbn.
  - now rewrite <- !app_assoc.
  - reflexivity.
Qed.

Lemma prepared_steady (keep : event -> bool) (u : string) (s : state) :
  py_ne (tts_hash s) (fingerprint hash (config s)) = false ->
  keep (log_info ("Speak: " ++ u)) = false ->
  frame keep s (prepared hash u s).
Proof.
  intros Hsame Hlog. unfold prepared. rewrite Hsame.
  now apply frame_record.
Qed.

Lemma prepared_fingerprint (u : string) (s : state) :
  py_ne (tts_hash (prepared hash u s)) (fingerprint hash (config s)) = false
  /\ tts_hash (prepared hash u s)
     = (if py_ne (tts_hash s) (fingerprint hash (config s))
        then PyInt (fingerprint hash (config s)) else tts_hash s)
  /\ tts (prepared hash u s)
     = (if py_ne (tts_hash s) (fingerprint hash (config s))
        then engines s else tts s)
  /\ config (prepared hash u s) = config s
  /\ speak_flag (prepared hash u s) = speak_flag s
  /\ lock (prepared hash u s) = lock s
  /\ Configuration (prepared hash u s) = Configuration s
  /\ _last_stop_signal (prepared hash u s) = _last_stop_signal s
  /\ signals (prepared hash u s) = signals s
  /\ clock (prepared hash u s) = clock s
  /\ failing (prepared hash u s) = failing s
  /\ engines (prepared hash u s)
     = (if py_ne (tts_hash s) (fingerprint hash (config s))
        then S (engines s) else engines s).
Proof.
  unfold prepared.
  destruct (py_ne (tts_hash s) (fingerprint hash (config s))) eqn:Hne; cbn;
    repeat split; try assumption.
  now rewrite Z.eqb_refl.
Qed.

Lemma try_execute_trace (u i : string) (mute : bool) (s : state) :
  trace (final (try_execute u i mute s))
  = trace s ++ (if mute then [] else [tts_execute (tts s) u i])
      ++ [lock_release]
  /\ lock (final (try_execute u i mute s)) = false
  /\ same_globals s (final (try_execute u i mute s))
  /\ (forall s', try_execute u i mute s <> Block s')
  /\ (lock s = false ->
      try_execute u i mute s
      = Raise LockError (final (try_execute u i mute s))).
Proof.
  unfold try_execute, finally, execute, release, bind, call, modify, get,
    raise, ret.
  destruct mute; cbn [negb].
  - cbn. destruct (lock s) eqn:Hlock; cbn; unfold same_globals;
      repeat split; try discriminate; try (intros; congruence).
  - cbn. destruct (failing s u) as [e |]; cbn;
      destruct (lock s) eqn:Hlock; cbn;
      unfold same_globals; rewrite <- ?app_assoc; repeat split;
      try discriminate; try (intros; congruence).
Qed.




Lemma frame_entered (keep : event -> bool) (event : message) (s : state) :
  bookkeeping keep -> frame keep s (entered event s).
Proof.
  intros (Hacq & _ & Hstart & _ & Hemit & Honce & _).
  unfold entered.
  assert (H3 : frame keep s
                 (record (emit_speech_start event)
                    (record stopwatch_start
                       (record lock_acquire (set_lock true s))))).
  { eapply frame_trans; [apply (frame_set_lock keep true) |].
    eapply frame_trans; [apply (frame_record keep lock_acquire), Hacq |].
    eapply frame_trans; [apply (frame_record keep stopwatch_start), Hstart |].
    apply frame_record, Hemit. }
  destruct (default false (expect_response event)); [| exact H3].
  eapply frame_trans; [exact H3 | apply frame_record, Honce].
Qed.

Lemma handle_speak_run (sched : schedule) (event : message) (s : state) :
  lock s = false ->
  handle_speak hash sched event s
  = bind (finally
            (bind (speak_branch hash sched event (Configuration s))
                  (fun _ => call stopwatch_stop))
            release)
         (fun _ => bind get (fun s' =>
            call (report_timing (default "unknown"%string (ident event))
                    (tts s'))))
         (entered event s).
Proof.
  intros Hfree.
  unfold handle_speak, with_lock, bind, acquire, get. rewrite Hfree.
  unfold entered, speak_branch, splits.
  destruct (default false (expect_response event)); reflexivity.
Qed.



Lemma mute_and_speak_disabled_run
    (utterance ident : string) (mute : bool) (s : state) :
  speak_flag s = false ->
  mute_and_speak hash utterance ident mute s
  = Return tt (record (log_info ("Speak: " ++ utterance)) s).
Proof.
  intros Hoff. unfold mute_and_speak, bind, call, modify, get. cbn.
  now rewrite Hoff.
Qed.

(** The state in which a call of [mute_and_speak] ends, field by field;
    [differs] says whether the recorded fingerprint is out of date. *)
Lemma mute_and_speak_final (u i : string) (mute : bool) (s : state) :
  let s' := final (mute_and_speak hash u i mute s) in
  let differs := py_ne (tts_hash s) (fingerprint hash (config s)) in
  trace s'
  = trace s ++ log_info ("Speak: " ++ u)
      :: (if speak_flag s
          then (if differs then swap_cycle (tts s) (engines s) else [])
               ++ (if mute then []
                   else [tts_execute (if differs then engines s else tts s)
                           u i])
               ++ [lock_release]
          else [])
  /\ tts s' = (if speak_flag s && differs then engines s else tts s)
  /\ tts_hash s'
     = (if speak_flag s && differs
        then PyInt (fingerprint hash (config s)) else tts_hash s)
  /\ lock s' = (if speak_flag s then false else lock s)
  /\ config s' = config s /\ speak_flag s' = speak_flag s
  /\ Configuration s' = Configuration s
  /\ _last_stop_signal s' = _last_stop_signal s
  /\ signals s' = signals s /\ clock s' = clock s
  /\ failing s' = failing s
  /\ engines s'
     = (if speak_flag s && differs then S (engines s) else engines s)
  /\ (forall s'', mute_and_speak hash u i mute s <> Block s'').
Proof.
  intros s' differs. subst s'.
  destruct (speak_flag s) eqn:Hflag.
  - rewrite (mute_and_speak_enabled_run _ _ _ _ Hflag).
    destruct (try_execute_trace u i mute (prepared hash u s))
      as (Htr & Hlock & Hsame & Hblock & _).
    destruct (prepared_fingerprint u s)
      as (_ & Hh & Ht & Hc & Hf & _ & HC & Hm & Hs & Hk & Hfail & Hn).
    destruct Hsame
      as (Hc' & Ht' & Hh' & Hm' & Hf' & HC' & Hs' & Hk' & Hn' & Hfail').
    subst differs. rewrite Htr, prepared_trace, Ht. cbn [andb].
    split; [now rewrite <- List.app_assoc |].
    repeat split; try congruence.
  - rewrite (mute_and_speak_disabled_run _ _ _ _ Hflag). cbn.
    repeat split; try discriminate; assumption.
Qed.



Lemma swaps_swap_cycle (old new : engine) :
  swaps (swap_cycle old new) = swap_cycle old new.
Proof. reflexivity. Qed.





Lemma guarded_final (body : M state unit) (s : state) :
  final (guarded body s) = final (body s)
  \/ final (guarded body s)
     = record (log_error "Error in mute_and_speak") (final (body s)).
Proof.
  unfold guarded. destruct (body s) as [a s1 | e s1 | s1]; auto.
  destruct e; auto.
Qed.


Lemma speak_chunks_quiet_cons (start : float) (ident : string) (i : nat)
    (c : string) (cs : list string) (s : state) :
  speak_chunks hash quiet start ident i (c :: cs) s
  = bind (guarded (mute_and_speak hash c ident false))
         (fun _ s1 =>
            if (start <? _last_stop_signal s1)%float
               || bool_decide ("buttonPress"%string ∈ signals s1)
            then Return tt s1
            else speak_chunks hash quiet start ident (S i) cs s1) s.
Proof.
  cbn [speak_chunks]. unfold bind, others, get, check_for_signal, ret. cbn.
  destruct (guarded (mute_and_speak hash c ident false) s) as [[] s1 | |];
    try reflexivity.
  destruct (start <? _last_stop_signal s1)%float; [reflexivity |]. cbn.
  destruct (bool_decide ("buttonPress"%string ∈ signals s1)); reflexivity.
Qed.



Lemma split_from_nonempty (s : string) :
  forall before chunk, Re.split_from before chunk s <> [].
Proof.
  induction s as [| c s IH]; intros before chunk; cbn; [discriminate |].
  destruct (Re.boundary before c); [discriminate | apply IH].
Qed.


Lemma bookkeeping_executions : bookkeeping is_execute.
Proof. unfold bookkeeping. repeat split. Qed.

Lemma executed_filter (tr : list event) :
  executed (List.filter is_execute tr) = executed tr.
Proof.
  induction tr as [| ev tr IH]; [reflexivity |].
  destruct ev; cbn; try exact IH. unfold executed in *. cbn. now rewrite IH.
Qed.

Lemma frame_executed (s s' : state) :
  frame is_execute s s' -> executed (trace s') = executed (trace s).
Proof.
  intros [Htr _]. now rewrite <- (executed_filter (trace s')), Htr,
    executed_filter.
Qed.









Lemma handle_stop_run (s : state) :
  handle_stop s
  = Return tt
      (if bool_decide ("isSpeaking"%string ∈ signals s)
       then record (playback_clear_visimes (tts s))
              (record (playback_clear_queue (tts s))
                 (set_last_stop_signal (clock s) s))
       else s).
Proof.
  unfold handle_stop, check_for_signal, bind, get, ret, time_time, modify,
    call. cbn.
  destruct (bool_decide ("isSpeaking"%string ∈ signals s)); reflexivity.
Qed.

Lemma others_snoc (acts : list action) (a : action) (s : state) :
  final (others (acts ++ [a]) s)
  = final (act a (final (others acts s))).
Proof. unfold others. cbn [final]. now rewrite foldl_app. Qed.

Lemma speak_chunks_cons (sched : schedule) (start : float) (ident : string)
    (i : nat) (c : string) (cs : list string) (s : state) :
  speak_chunks hash sched start ident i (c :: cs) s
  = match guarded (mute_and_speak hash c ident false)
            (final (others (before_call (sched i)) s)) with
    | Return _ s1 =>
        let s2 := final (others (before_check (sched i)) s1) in
        if (start <? _last_stop_signal s2)%float
           || bool_decide ("buttonPress"%string ∈ signals s2)
        then Return tt s2
        else speak_chunks hash sched start ident (S i) cs s2
    | Raise e s1 => Raise e s1
    | Block s1 => Block s1
    end.
Proof.
  cbn [speak_chunks]. unfold bind, others, get, check_for_signal, ret.
  cbn [final].
  destruct (guarded _ _) as [[] s1 | |]; try reflexivity. cbn zeta.
  destruct (start <? _)%float; [reflexivity |]. cbn.
  destruct (bool_decide _); reflexivity.
Qed.

(** C3, as amended: a stop message handled while [isSpeaking] is
    raised sets the stop marker to the time of handling and clears the
    engine's queues; when that happens between the handing over of a
    chunk and the test that follows it, at a time strictly later than
    the start of the loop, the loop ends at that test: no chunk of
    [rest] reaches the engine.  Handling a stop never raises, and does
    nothing at all while [isSpeaking] is not raised.  In general the
    loop ends at the test that follows a chunk exactly when the marker
    is then strictly greater than the start time or [buttonPress] is
    raised, and goes on with the next chunk otherwise. *)
Theorem stop_during_chunk_ends_loop
    (sched : schedule) (start : float) (ident : string) (i : nat)
    (chunk : string) (rest : list string) (acts : list action)
    (s s1 : state) :
  before_check (sched i) = acts ++ [stop_message] ->
  guarded (mute_and_speak hash chunk ident false)
    (final (others (before_call (sched i)) s))
  = Return tt s1 ->
  let s2 := final (others acts s1) in
  "isSpeaking"%string ∈ signals s2 ->
  (start <? clock s2)%float = true ->
  speak_chunks hash sched start ident i (chunk :: rest) s
  = Return tt (final (handle_stop s2))
  /\ _last_stop_signal (final (handle_stop s2)) = clock s2
  /\ trace (final (handle_stop s2))
     = trace s2 ++ [playback_clear_queue (tts s2);
                    playback_clear_visimes (tts s2)]
  /\ executed (trace (final (handle_stop s2))) = executed (trace s2)
  /\ (forall s0, exists s0', handle_stop s0 = Return tt s0')
  /\ (forall s0, "isSpeaking"%string ∉ signals s0 ->
                 handle_stop s0 = Return tt s0)
  /\ (forall sched' start' i' c cs s0 s3,
        guarded (mute_and_speak hash c ident false)
          (final (others (before_call (sched' i')) s0))
        = Return tt s3 ->
        speak_chunks hash sched' start' ident i' (c :: cs) s0
        = let s4 := final (others (before_check (sched' i')) s3) in
          if (start' <? _last_stop_signal s4)%float
             || bool_decide ("buttonPress"%string ∈ signals s4)
          then Return tt s4
          else speak_chunks hash sched' start' ident (S i') cs s4).
Proof.
  intros Hsched Hcall s2 Hspeaking Hlater.
  assert (Hstop : handle_stop s2
                  = Return tt
                      (record (playback_clear_visimes (tts s2))
                         (record (playback_clear_queue (tts s2))
                            (set_last_stop_signal (clock s2) s2)))).
  { rewrite handle_stop_run. now rewrite (bool_decide_eq_true_2 _ Hspeaking). }
  split; [| split; [| split; [| split; [| split; [| split]]]]].
  - rewrite speak_chunks_cons, Hcall, Hsched. cbn zeta.
    rewrite others_snoc. cbn [act]. fold s2. rewrite Hstop. cbn [final].
    cbn [_last_stop_signal record set_last_stop_signal]. now rewrite Hlater.
  - now rewrite Hstop.
  - rewrite Hstop. cbn. now rewrite <- List.app_assoc.
  - rewrite Hstop. cbn [final trace record set_last_stop_signal].
    rewrite !executed_snoc. cbn. now rewrite !app_nil_r.
  - intros s0. rewrite handle_stop_run. eauto.
  - intros s0 Hsilent. rewrite handle_stop_run.
    now rewrite (bool_decide_eq_false_2 _ Hsilent).
  - intros sched' start' i' c cs s0 s3 Hc.
    now rewrite speak_chunks_cons, Hc.
Qed.

Lemma guarded_outcome (body : M state unit) (s : state) :
  (forall s', body s <> Block s') ->
  lock (final (guarded body s)) = lock (final (body s))
  /\ speak_flag (final (guarded body s)) = speak_flag (final (body s))
  /\ (forall s', guarded body s <> Block s').
Proof.
  intros Hnb. unfold guarded.
  destruct (body s) as [a s1 | e s1 | s1].
  - repeat split; discriminate.
  - destruct e; repeat split; discriminate.
  - now destruct (Hnb s1).
Qed.

Lemma speak_chunks_quiet_lock (start : float) (ident : string)
    (chunks : list string) :
  forall (i : nat) (s : state),
    speak_flag s = true ->
    chunks <> [] \/ lock s = false ->
    lock (final (speak_chunks hash quiet start ident i chunks s)) = false
    /\ (forall s', speak_chunks hash quiet start ident i chunks s
                   <> Block s').
Proof.
  induction chunks as [| c cs IH]; intros i s Hon Hstart.
  - destruct Hstart as [Hne | Hfree]; [congruence |].
    split; [exact Hfree | discriminate].
  - rewrite speak_chunks_quiet_cons.
    destruct (mute_and_speak_final c ident false s)
      as (_ & _ & _ & Hlock & _ & Hflag & _ & _ & _ & _ & _ & _ & Hnb).
    rewrite Hon in Hlock.
    destruct (guarded_outcome (mute_and_speak hash c ident false) s Hnb)
      as (Hl & Hf & Hnb').
    rewrite Hlock in Hl. rewrite Hflag, Hon in Hf.
    unfold bind.
    destruct (guarded (mute_and_speak hash c ident false) s)
      as [[] s1 | e s1 | s1]; cbn [final] in *.
    + destruct (_ || _); [split; [exact Hl | discriminate] |].
      apply IH; auto.
    + split; [exact Hl | discriminate].
    + now destruct (Hnb' s1).
Qed.

Lemma speak_branch_quiet_lock (event : message) (c : configuration)
    (s : state) :
  speak_flag s = true ->
  lock (final (speak_branch hash quiet event c s)) = false
  /\ (forall s', speak_branch hash quiet event c s <> Block s').
Proof.
  intros Hon. unfold speak_branch.
  destruct (splits c (utterance event)).
  - unfold bind, time_time, get, ret. cbn.
    apply speak_chunks_quiet_lock; [exact Hon | left].
    apply split_from_nonempty.
  - destruct (mute_and_speak_final (utterance event)
                (default "unknown"%string (ident event))
                (default false (mute event)) s)
      as (_ & _ & _ & Hlock & _ & _ & _ & _ & _ & _ & _ & _ & Hnb).
    rewrite Hon in Hlock. auto.
Qed.

(** Every request handled with speech enabled, the lock free and the
    others silent finds the lock already released when it leaves the
    [with] block, and ends in the error of the second release. *)
Lemma handle_speak_enabled_raises (event : message) (s : state) :
  lock s = false ->
  speak_flag s = true ->
  lock (final (speak_branch hash quiet event (Configuration s)
                 (entered event s))) = false
  /\ raised (handle_speak hash quiet event s) = Some LockError.
Proof.
  intros Hfree Hon.
  assert (Hon' : speak_flag (entered event s) = true).
  { unfold entered. now destruct (default false (expect_response event)). }
  destruct (speak_branch_quiet_lock event (Configuration s)
              (entered event s) Hon') as [Hlock Hnb].
  split; [exact Hlock |].
  rewrite (handle_speak_run _ _ _ Hfree).
  unfold bind, finally, release, call, modify, get, raise.
  destruct (speak_branch hash quiet event (Configuration s)
              (entered event s)) as [[] s1 | e s1 | s1]; cbn [final] in Hlock.
  - cbn. now rewrite Hlock.
  - cbn. now rewrite Hlock.
  - now destruct (Hnb s1).
Qed.

End SpeechFacts.

Section SpeechExamples.
Import Py Speech.

Lemma mute_and_speak_disabled_is_inert_witness :
  mute_and_speak hash27 "Hello." "unknown" false (set_flag false fresh)
  = Return tt (record (log_info "Speak: Hello.") (set_flag false fresh)).
Proof.
  exact (proj1 (mute_and_speak_disabled_is_inert hash27 "Hello." "unknown"
                  false (set_flag false fresh) eq_refl)).
Defined.

(** C1 fails on the code: on a plain request to the freshly
    initialised module, [mute_and_speak] releases the lock right after
    the engine call, while [handle_speak] is still inside [with lock];
    leaving the [with] block releases it a second time, which raises,
    and the timing report is never made.  With two chunks the lock is
    released three times.  The same error ends every request that is
    handled with speech enabled, the lock free and the others silent. *)
Theorem handle_speak_releases_lock_twice :
  let o := handle_speak hash27 quiet (speak "Hello.") fresh in
  raised o = Some LockError
  /\ lock (final o) = false
  /\ releases (trace (final o)) = 2%nat
  /\ drop 9 (trace (final o))
     = [lock_acquire; stopwatch_start; emit_speech_start (speak "Hello.");
        log_info "Speak: Hello."; playback_stop 0%nat; playback_join 0%nat;
        factory_create 1%nat; tts_init 1%nat;
        tts_execute 1%nat "Hello." "unknown"; lock_release;
        stopwatch_stop; lock_release]
  /\ releases
       (trace (final (handle_speak hash27 quiet
                        (speak "Hi there. How are you?") fresh)))
     = 3%nat
  /\ (forall hash event s,
        lock s = false -> speak_flag s = true ->
        raised (handle_speak hash quiet event s) = Some LockError).
Proof.
  split; [vm_compute; reflexivity |].
  split; [vm_compute; reflexivity |].
  split; [vm_compute; reflexivity |].
  split; [vm_compute; reflexivity |].
  split; [vm_compute; reflexivity |].
  intros hash event s Hfree Hon.
  now apply handle_speak_enabled_raises.
Qed.

(** C3 as stated fails.  A stop handled at time 1005, while audio
    plays, after the test that follows chunk 1 of a request started at
    time 1000: chunk 2 is still handed to the engine, after the stop.
    A stop handled at the very time the loop started, or while nothing
    plays, aborts nothing. *)
Lemma stop_after_test_lets_next_chunk_through :
  executed
    (trace (final (handle_speak hash27 (stop_before 1 1005)
                     (speak "One. Two. Three.") fresh)))
  = ["One."; "Two."]%string
  /\ drop 17
       (trace (final (handle_speak hash27 (stop_before 1 1005)
                        (speak "One. Two. Three.") fresh)))
     = [tts_execute 1%nat "One." "unknown"; lock_release;
        playback_clear_queue 1%nat; playback_clear_visimes 1%nat;
        log_info "Speak: Two."; tts_execute 1%nat "Two." "unknown";
        lock_release; log_error "Error in mute_and_speak"; stopwatch_stop;
        lock_release]
  /\ executed
       (trace (final (handle_speak hash27 (stop_during 0 1000)
                        (speak "One. Two. Three.") fresh)))
     = ["One."; "Two."; "Three."]%string
  /\ executed
       (trace (final (handle_speak hash27 (stop_in_silence 0 1005)
                        (speak "One. Two. Three.") fresh)))
     = ["One."; "Two."; "Three."]%string.
Proof. vm_compute. repeat split. Qed.

Lemma stop_during_chunk_ends_loop_witness :
  speak_chunks hash27 (stop_during 0 1005) 1000 "unknown" 0
    ["One."; "Two."; "Three."]%string fresh
  = Return tt
      (final
         (handle_stop
            (final
               (others [raise_signal "isSpeaking"; tick 1005]
                  (final
                     (guarded
                        (mute_and_speak hash27 "One." "unknown" false)
                        fresh)))))).
Proof.
  refine (proj1 (stop_during_chunk_ends_loop hash27 (stop_during 0 1005) 1000
                   "unknown" 0 "One." ["Two."; "Three."]%string
                   [raise_signal "isSpeaking"; tick 1005] fresh
                   (final (guarded
                             (mute_and_speak hash27 "One." "unknown" false)
                             fresh))
                   _ _ _ _)).
  - reflexivity.
  - vm_compute. reflexivity.
  - vm_compute. set_solver.
  - vm_compute. reflexivity.
Defined.





End SpeechExamples.

(** ** The player, continued *)

Section MpvMore.
Import Py Mpv.

Lemma getitem_in_range {A} (l : list A) (i : Z) :
  0 <= i < Z.of_nat (length l) ->
  exists x, getitem l i = Some x /\ l !! Z.to_nat i = Some x.
Proof.
  intros Hi. unfold getitem.
  destruct (Z.leb_spec 0 i); [| lia].
  destruct (Z.ltb_spec i (Z.of_nat (length l))); [| lia]. cbn.
  destruct (lookup_lt_is_Some_2 l (Z.to_nat i)) as [x Hx]; [lia |].
  exists x. now rewrite Hx.
Qed.

Lemma play_in_range (self : MPVService) :
  0 <= index self < Z.of_nat (length (tracks self)) ->
  exists t, tracks self !! Z.to_nat (index self) = Some t
            /\ play self
               = Return tt (call_player (player_play t)
                              (call_player player_stop self)).
Proof.
  intros Hi. destruct (getitem_in_range _ _ Hi) as (t & Hget & Hl).
  exists t. split; [exact Hl |].
  unfold play, bind, get, modify, ret.
  destruct (Z.eqb_spec (Z.of_nat (length (tracks self))) 0); [lia |].
  cbn. now rewrite Hget.
Qed.

Lemma next_run (self : MPVService) :
  next self
  = play (set_index (if index self + 1 >? Z.of_nat (length (tracks self))
                     then 0 else index self + 1) self).
Proof.
  unfold next, bind, get, modify, ret. cbn.
  now destruct (index self + 1 >? Z.of_nat (length (tracks self))).
Qed.

Lemma previous_run (self : MPVService) :
  previous self = play (set_index (Z.max 0 (index self - 1)) self).
Proof.
  unfold previous, bind, get, modify, ret. cbn.
  destruct (Z.ltb_spec (index self - 1) 0); cbn.
  - now replace (Z.max 0 (index self - 1)) with 0 by lia.
  - now replace (Z.max 0 (index self - 1)) with (index self - 1) by lia.
Qed.

Lemma play_at_end (self : MPVService) :
  tracks self <> [] ->
  index self = Z.of_nat (length (tracks self)) ->
  play self = Raise IndexError (call_player player_stop self).
Proof.
  intros Hne Hi. unfold play, bind, get, modify, ret, raise.
  destruct (Z.eqb_spec (Z.of_nat (length (tracks self))) 0) as [H0 | _].
  - destruct (tracks self); [congruence | cbn in H0; lia].
  - cbn. now rewrite Hi, getitem_at_length.
Qed.

Lemma play_empty (self : MPVService) :
  tracks self = [] -> play self = Return tt self.
Proof. intros H. unfold play, bind, get, ret. now rewrite H. Qed.

(** X1: the index stays between 0 and the length of the track list under
    [next] and [previous], whether they play or raise. *)
Theorem index_stays_in_bounds (self : MPVService) :
  0 <= index self <= Z.of_nat (length (tracks self)) ->
  (0 <= index (final (next self)) <= Z.of_nat (length (tracks self))
   /\ tracks (final (next self)) = tracks self)
  /\ (0 <= index (final (previous self)) <= Z.of_nat (length (tracks self))
      /\ tracks (final (previous self)) = tracks self).
Proof.
  intros Hi. destruct self as [ts i p]. cbn in Hi. split.
  - unfold next, play, bind, get, modify, ret, raise. cbn.
    destruct (Z.gtb_spec (i + 1) (Z.of_nat (length ts))); cbn;
      destruct (Z.of_nat (length ts) =? 0); cbn;
      try (split; [lia | reflexivity]).
    + destruct (getitem ts 0); cbn; split; (lia || reflexivity).
    + destruct (getitem ts (i + 1)); cbn; split; (lia || reflexivity).
  - unfold previous, play, bind, get, modify, ret, raise. cbn.
    destruct (Z.ltb_spec (i - 1) 0); cbn;
      destruct (Z.of_nat (length ts) =? 0); cbn;
      try (split; [lia | reflexivity]).
    + destruct (getitem ts 0); cbn; split; (lia || reflexivity).
    + destruct (getitem ts (i - 1)); cbn; split; (lia || reflexivity).
Qed.

Lemma index_stays_in_bounds_witness :
  0 <= index (final (next {| tracks := ["a.mp3"; "b.mp3"]%string; index := 2;
                             player := [] |})) <= 2.
Proof.
  refine (proj1 (proj1 (index_stays_in_bounds
                          {| tracks := ["a.mp3"; "b.mp3"]%string; index := 2;
                             player := [] |} _))).
  cbn. lia.
Defined.

(** X2: from a position on a track, [previous] never raises: it stops the
    player and plays the track before, or the first track again when it
    is already on the first. *)
Theorem previous_plays_track_before (self : MPVService) :
  0 <= index self < Z.of_nat (length (tracks self)) ->
  exists t,
    tracks self !! Z.to_nat (Z.max 0 (index self - 1)) = Some t
    /\ previous self
       = Return tt
           (call_player (player_play t)
              (call_player player_stop
                 (set_index (Z.max 0 (index self - 1)) self))).
Proof.
  intros Hi.
  pose proof (previous_run self) as Hrun.
  rewrite Hrun.
  destruct (play_in_range (set_index (Z.max 0 (index self - 1)) self))
    as (t & Ht & Hplay); [cbn; lia |].
  exists t. split; [exact Ht | exact Hplay].
Qed.

Lemma previous_plays_track_before_witness :
  previous {| tracks := ["a.mp3"; "b.mp3"]%string; index := 0; player := [] |}
  = Return tt {| tracks := ["a.mp3"; "b.mp3"]%string; index := 0;
                 player := [player_stop; player_play "a.mp3"] |}.
Proof.
  destruct (previous_plays_track_before
              {| tracks := ["a.mp3"; "b.mp3"]%string; index := 0;
                 player := [] |}) as (t & Ht & Hrun).
  - cbn. lia.
  - cbn in Ht. injection Ht as <-. exact Hrun.
Defined.

(** X3: after [next] has run past the last track and raised, the next
    [next] wraps around: it plays the first track. *)
Theorem next_wraps_on_second_call (self : MPVService) :
  tracks self <> [] ->
  index self = Z.of_nat (length (tracks self)) - 1 ->
  exists first,
    tracks self !! 0%nat = Some first
    /\ raised (next self) = Some IndexError
    /\ next (final (next self))
       = Return tt
           (call_player (player_play first)
              (call_player player_stop
                 (set_index 0 (call_player player_stop self)))).
Proof.
  intros Hne Hlast.
  assert (Hlen : 0 < Z.of_nat (length (tracks self)))
    by (destruct (tracks self); [congruence | cbn; lia]).
  destruct (tracks self) as [| first ts] eqn:Hts; [congruence |].
  exists first. split; [reflexivity |]. rewrite <- Hts in *.
  assert (Hrun : next self
                 = Raise IndexError
                     (call_player player_stop
                        (set_index (Z.of_nat (length (tracks self))) self))).
  { rewrite next_run.
    replace (index self + 1) with (Z.of_nat (length (tracks self))) by lia.
    destruct (Z.gtb_spec (Z.of_nat (length (tracks self)))
                (Z.of_nat (length (tracks self)))); [lia |].
    apply play_at_end; [cbn; congruence | reflexivity]. }
  rewrite Hrun. split; [reflexivity |].
  cbn [final]. rewrite next_run. cbn [index tracks set_index call_player].
  destruct (Z.gtb_spec (Z.of_nat (length (tracks self)) + 1)
              (Z.of_nat (length (tracks self)))); [| lia].
  destruct (play_in_range
              (set_index 0 (call_player player_stop
                 (set_index (Z.of_nat (length (tracks self))) self))))
    as (t & Ht & Hplay); [cbn; lia |].
  cbn in Ht. rewrite Hts in Ht. injection Ht as <-. exact Hplay.
Qed.

Lemma next_wraps_on_second_call_witness :
  raised (next {| tracks := ["a.mp3"; "b.mp3"]%string; index := 1;
                  player := [] |}) = Some IndexError.
Proof.
  destruct (next_wraps_on_second_call
              {| tracks := ["a.mp3"; "b.mp3"]%string; index := 1;
                 player := [] |}) as (t & _ & Hraise & _).
  - cbn. discriminate.
  - reflexivity.
  - exact Hraise.
Defined.

(** X4: with no track in the list, [play], [next] and [previous] call the
    player not at all and never raise, wherever the index stands. *)
Theorem empty_list_is_silent (self : MPVService) :
  tracks self = [] ->
  play self = Return tt self
  /\ (exists i, next self = Return tt (set_index i self))
  /\ (exists i, previous self = Return tt (set_index i self)).
Proof.
  intros Hempty. split; [now apply play_empty |]. split.
  - rewrite next_run. eexists. now apply play_empty.
  - rewrite previous_run. eexists. now apply play_empty.
Qed.

Lemma empty_list_is_silent_witness :
  play {| tracks := []; index := 3; player := [] |}
  = Return tt {| tracks := []; index := 3; player := [] |}.
Proof.
  exact (proj1 (empty_list_is_silent {| tracks := []; index := 3;
                                        player := [] |} eq_refl)).
Defined.

(** X5: [clear_list] leaves the index where it was: when a new list is
    added afterwards, [play] starts at the old position, and raises if
    the new list is too short for it. *)
Theorem clear_list_keeps_position (self : MPVService) (ts : list string) :
  ts <> [] ->
  0 <= index self ->
  let self' := add_list ts (clear_list self) in
  tracks self' = ts /\ index self' = index self
  /\ (forall t, ts !! Z.to_nat (index self) = Some t ->
        play self'
        = Return tt (call_player (player_play t)
                       (call_player player_stop self')))
  /\ (Z.of_nat (length ts) <= index self ->
      play self' = Raise IndexError (call_player player_stop self')).
Proof.
  intros Hne Hpos self'. subst self'.
  destruct self as [old i p]. cbn in *.
  split; [reflexivity |]. split; [reflexivity |].
  unfold play, bind, get, modify, ret, raise. cbn.
  destruct (Z.eqb_spec (Z.of_nat (length ts)) 0) as [H0 | _];
    [destruct ts; [congruence | cbn in H0; lia] |].
  cbn. split.
  - intros t Ht. apply lookup_lt_Some in Ht as Hlen.
    unfold getitem.
    destruct (Z.leb_spec 0 i); [| lia].
    destruct (Z.ltb_spec i (Z.of_nat (length ts))); [| lia].
    cbn. now rewrite Ht.
  - intros Hshort. unfold getitem.
    destruct (Z.ltb_spec i (Z.of_nat (length ts))); [lia |].
    rewrite andb_false_r.
    destruct (Z.ltb_spec i 0); [lia |]. now rewrite andb_false_r.
Qed.

Lemma clear_list_keeps_position_witness :
  play (add_list ["c.mp3"%string]
          (clear_list {| tracks := ["a.mp3"; "b.mp3"]%string; index := 1;
                         player := [] |}))
  = Raise IndexError
      {| tracks := ["c.mp3"%string]; index := 1; player := [player_stop] |}.
Proof.
  refine (proj2 (proj2 (proj2
            (clear_list_keeps_position
               {| tracks := ["a.mp3"; "b.mp3"]%string; index := 1;
                  player := [] |} ["c.mp3"%string] _ _))) _).
  - discriminate.
  - cbn. lia.
  - cbn. lia.
Defined.

End MpvMore.

(** ** The utterance splitter, continued *)

Section SplitterMore.
Import Re Chunks.
Local Open Scope char_scope.

Lemma string_snoc (l : list ascii) (c : ascii) (s : string) :
  (string_of_list_ascii (l ++ [c]) ++ s)%string
  = (string_of_list_ascii l ++ String c s)%string.
Proof.
  induction l as [| a l IH]; [reflexivity |].
  change (String a (string_of_list_ascii (l ++ [c]) ++ s)%string
          = String a (string_of_list_ascii l ++ String c s)%string).
  now rewrite IH.
Qed.

Lemma boundary_space (before : list ascii) (c : ascii) :
  boundary before c = true -> space c = true /\ after_stop before = true.
Proof.
  unfold boundary. intros H.
  apply andb_true_iff in H as [H Hs]. apply andb_true_iff in H as [_ Ha].
  now split.
Qed.

Lemma split_from_rejoin (s : string) :
  forall before chunk,
    exists seps,
      length (split_from before chunk s) = S (length seps)
      /\ Forall (fun c => space c = true) seps
      /\ rejoin (split_from before chunk s) seps
         = (string_of_list_ascii (rev chunk) ++ s)%string.
Proof.
  induction s as [| c s IH]; intros before chunk.
  - exists []. cbn [split_from rejoin length].
    split; [reflexivity |]. split; [constructor |].
    symmetry. apply append_empty_r.
  - cbn [split_from]. destruct (boundary before c) eqn:Hb.
    + destruct (IH (c :: before) []) as (seps & Hlen & Hsp & Hjoin).
      exists (c :: seps). cbn [length rejoin].
      split; [now rewrite Hlen |].
      split; [constructor; [now apply boundary_space in Hb | exact Hsp] |].
      now rewrite Hjoin.
    + destruct (IH (c :: before) (c :: chunk)) as (seps & Hlen & Hsp & Hjoin).
      exists seps. split; [exact Hlen |]. split; [exact Hsp |].
      rewrite Hjoin. cbn [rev]. change (List.rev chunk) with (rev chunk).
      apply string_snoc.
Qed.

(** X6: splitting loses nothing but one whitespace character at each cut:
    putting the chunks back together with the right whitespace
    characters between them gives the utterance again. *)
Theorem split_rejoins (utterance : string) :
  exists seps,
    length (split utterance) = S (length seps)
    /\ Forall (fun c => space c = true) seps
    /\ rejoin (split utterance) seps = utterance.
Proof.
  destruct (split_from_rejoin utterance [] []) as (seps & H1 & H2 & H3).
  exists seps. repeat split; assumption.
Qed.

Lemma split_from_whole (s : string) :
  forall before chunk,
    (after_stop before = false
     /\ forall c, In c (list_ascii_of_string s) -> c <> "." /\ c <> "?")
    \/ (forall c, In c (list_ascii_of_string s) -> space c = false) ->
    split_from before chunk s
    = [(string_of_list_ascii (rev chunk) ++ s)%string].
Proof.
  induction s as [| c s IH]; intros before chunk H.
  - cbn. now rewrite append_empty_r.
  - cbn [split_from].
    assert (Hb : boundary before c = false).
    { destruct (boundary before c) eqn:Hb; [| reflexivity].
      apply boundary_space in Hb as [Hs Ha].
      destruct H as [[Hno _] | Hno]; [congruence |].
      rewrite (Hno c) in Hs; [discriminate | now left]. }
    rewrite Hb, IH.
    + cbn [rev]. change (List.rev chunk) with (rev chunk).
      now rewrite string_snoc.
    + destruct H as [[_ Hno] | Hno].
      * left. split.
        -- destruct (Hno c) as [H1 H2]; [now left |]. cbn.
           apply orb_false_iff. split; now apply Ascii.eqb_neq.
        -- intros c' Hin. apply Hno. now right.
      * right. intros c' Hin. apply Hno. now right.
Qed.

(** X7: an utterance with no period and no question mark in it, or with no
    whitespace, is one chunk: itself. *)
Theorem split_without_stop_is_whole (utterance : string) :
  (forall c, In c (list_ascii_of_string utterance) -> c <> "." /\ c <> "?")
  \/ (forall c, In c (list_ascii_of_string utterance) -> space c = false) ->
  split utterance = [utterance].
Proof.
  intros H. unfold split. rewrite split_from_whole; [reflexivity |].
  destruct H as [H | H]; [left; now split | now right].
Qed.

Lemma split_without_stop_is_whole_witness :
  split "What a day" = ["What a day"%string].
Proof.
  apply split_without_stop_is_whole. left.
  intros c Hin. cbn in Hin.
  repeat (destruct Hin as [<- | Hin]; [split; discriminate |]).
  destruct Hin.
Defined.

Lemma split_from_stops (s : string) :
  forall before chunk chunks last,
    chunk_of before chunk ->
    split_from before chunk s = chunks ++ [last] ->
    Forall (fun c => exists body,
              c = (body ++ ".")%string \/ c = (body ++ "?")%string) chunks.
Proof.
  induction s as [| c s IH]; intros before chunk chunks last Hinv Hsplit.
  - cbn in Hsplit. destruct chunks as [| x chunks]; [constructor |].
    destruct chunks; discriminate.
  - cbn [split_from] in Hsplit. destruct (boundary before c) eqn:Hb.
    + apply boundary_space in Hb as [Hs Ha].
      destruct chunks as [| x chunks].
      { cbn in Hsplit. injection Hsplit as _ Hnil.
        now apply split_from_nonempty in Hnil. }
      cbn in Hsplit. injection Hsplit as <- Hrest.
      constructor.
      * destruct chunk as [| d chunk]; cbn in Hinv; [congruence |].
        destruct Hinv as [b ->]. cbn in Ha.
        exists (string_of_list_ascii (rev chunk)).
        cbn [rev]. change (List.rev chunk) with (rev chunk).
        apply orb_true_iff in Ha as [Hd | Hd]; apply Ascii.eqb_eq in Hd;
          subst d; [left | right];
          rewrite <- (append_empty_r (string_of_list_ascii (rev chunk ++ _)));
          now rewrite string_snoc.
      * apply (IH (c :: before) [] chunks last); [| exact Hrest].
        cbn. apply orb_false_iff.
        split; apply Ascii.eqb_neq; intros ->; discriminate.
    + apply (IH (c :: before) (c :: chunk) chunks last); [| exact Hsplit].
      cbn. now exists before.
Qed.

(** X8: every chunk but the last ends with a period or a question mark. *)
Theorem split_chunks_end_with_stop (utterance : string)
    (chunks : list string) (last : string) :
  split utterance = chunks ++ [last] ->
  Forall (fun c => exists body,
            c = (body ++ ".")%string \/ c = (body ++ "?")%string) chunks.
Proof. apply split_from_stops. reflexivity. Qed.

Lemma split_chunks_end_with_stop_witness :
  Forall (fun c => exists body,
            c = (body ++ ".")%string \/ c = (body ++ "?")%string)
         ["Is it late?"; "It is."]%string.
Proof.
  apply (split_chunks_end_with_stop "Is it late? It is. Good night"
           ["Is it late?"; "It is."]%string "Good night"%string).
  vm_compute. reflexivity.
Defined.

End SplitterMore.

Section MarkupMore.
Import Re Speech.
Local Open Scope char_scope.

Lemma findall_open (s : string) :
  forall m, findall_from (Some m) s <> []
            <-> exists b c, s = (b ++ String ">" c)%string.
Proof.
  induction s as [| x s IH]; intros m; cbn [findall_from].
  - split; [congruence |]. intros (b & c & H). destruct b; discriminate.
  - destruct (Ascii.eqb_spec x ">") as [-> | Hx].
    + split; [| discriminate]. intros _. now exists ""%string, s.
    + rewrite IH. split.
      * intros (b & c & ->). now exists (String x b), c.
      * intros (b & c & H). destruct b as [| y b].
        -- change (String x s = String ">" c) in H. congruence.
        -- change (String x s = String y (b ++ String ">" c)%string) in H.
           injection H as _ ->. now exists b, c.
Qed.

Lemma findall_closed (s : string) :
  findall_from None s <> []
  <-> exists a b c, s = (a ++ String "<" (b ++ String ">" c))%string.
Proof.
  induction s as [| x s IH]; cbn [findall_from].
  - split; [congruence |]. intros (a & b & c & H). destruct a; discriminate.
  - destruct (Ascii.eqb_spec x "<") as [-> | Hx].
    + rewrite findall_open. split.
      * intros (b & c & ->). now exists ""%string, b, c.
      * intros (a & b & c & H). destruct a as [| y a].
        -- change (String "<" s = String "<" (b ++ String ">" c)%string) in H.
           injection H as ->. now exists b, c.
        -- change (String "<" s
                   = String y (a ++ String "<" (b ++ String ">" c))%string)
             in H.
           injection H as _ ->.
           exists (a ++ String "<" b)%string, c.
           rewrite append_assoc. reflexivity.
    + rewrite IH. split.
      * intros (a & b & c & ->). now exists (String x a), b, c.
      * intros (a & b & c & H). destruct a as [| y a].
        -- change (String x s = String "<" (b ++ String ">" c)%string) in H.
           congruence.
        -- change (String x s
                   = String y (a ++ String "<" (b ++ String ">" c))%string)
             in H.
           injection H as _ ->. now exists a, b, c.
Qed.

(** X9: [handle_speak] splits the utterance exactly when the platform is
    not picroft and the utterance has no [<] with a [>] somewhere
    after it. *)
Theorem splits_unless_picroft_or_markup (c : configuration) (u : string) :
  splits c u = false
  <-> platform c = Some "picroft"%string
      \/ exists a b d, u = (a ++ String "<" (b ++ String ">" d))%string.
Proof.
  unfold splits. rewrite andb_false_iff, negb_false_iff, bool_decide_eq_true.
  rewrite Nat.eqb_neq, <- findall_closed. unfold findall_tags.
  split; (intros [H | H]; [now left | right]).
  - intros Hnil. apply H. now rewrite Hnil.
  - destruct (findall_from None u); [congruence | discriminate].
Qed.

End MarkupMore.

(** ** The speech handlers, continued *)

Section SpeechMore.
Import Py Speech Runs.

Variable hash : string -> Z.

Lemma silent_refl (s : state) : speak_flag s = false -> silent s s.
Proof. unfold silent. auto 10. Qed.

Lemma silent_trans (s1 s2 s3 : state) :
  silent s1 s2 -> silent s2 s3 -> silent s1 s3.
Proof. unfold silent. intuition congruence. Qed.

Lemma silent_record (ev : event) (s : state) :
  speak_flag s = false ->
  is_execute ev = false -> swap_event ev = false -> ev <> lock_release ->
  silent s (record ev s).
Proof.
  intros Hoff He Hs Hr. unfold silent. cbn [trace record lock tts speak_flag].
  rewrite executed_snoc, swaps_snoc, releases_snoc, Hs.
  destruct ev; cbn in He; try discriminate; try congruence;
    rewrite ?app_nil_r, ?Nat.add_0_r; auto 10.
Qed.

Lemma silent_act (a : action) (s : state) :
  speak_flag s = false -> a <> enable_message ->
  silent s (final (act a s)).
Proof.
  intros Hoff Hne. destruct a; cbn [act]; try congruence.
  - unfold silent. cbn. auto 10.
  - unfold silent. cbn. auto 10.
  - unfold silent. cbn. auto 10.
  - rewrite handle_stop_run. cbn [final].
    destruct (bool_decide _); [| now apply silent_refl].
    eapply silent_trans; [| apply silent_record; cbn; congruence].
    eapply silent_trans; [| apply silent_record; cbn; congruence].
    unfold silent. cbn. auto 10.
  - unfold unset_speak_flag, speak_status, bind, modify, get, call.
    cbn [final].
    apply (silent_record (emit_speak_status false) (set_flag false s));
      [reflexivity | reflexivity | reflexivity | discriminate].
  - unfold silent. cbn. auto 10.
Qed.

Lemma silent_others (acts : list action) :
  forall s, speak_flag s = false -> enable_message ∉ acts ->
            silent s (final (others acts s)).
Proof.
  induction acts as [| a acts IH] using rev_ind; intros s Hoff Hno.
  - now apply silent_refl.
  - rewrite others_snoc. apply not_elem_of_app in Hno as [Hno Ha].
    specialize (IH s Hoff Hno).
    eapply silent_trans; [exact IH |].
    apply silent_act; [apply IH |].
    intros ->. apply Ha. now left.
Qed.

Lemma silent_speak_chunks (sched : schedule) (start : float) (ident : string)
    (chunks : list string) :
  never_enabled sched ->
  forall (i : nat) (s : state),
    speak_flag s = false ->
    exists s', speak_chunks hash sched start ident i chunks s = Return tt s'
               /\ silent s s'.
Proof.
  intros Hsched. induction chunks as [| c cs IH]; intros i s Hoff.
  - exists s. split; [reflexivity | now apply silent_refl].
  - rewrite speak_chunks_cons.
    destruct (Hsched i) as [Hcall Hcheck].
    pose proof (silent_others _ s Hoff Hcall) as H1.
    set (s1 := final (others (before_call (sched i)) s)) in *.
    assert (Hoff1 : speak_flag s1 = false) by apply H1.
    unfold guarded. rewrite (mute_and_speak_disabled_run hash _ _ _ _ Hoff1).
    pose proof (silent_record (log_info ("Speak: " ++ c)) s1 Hoff1
                  eq_refl eq_refl ltac:(discriminate)) as H2.
    set (s2 := record (log_info ("Speak: " ++ c)) s1) in *.
    assert (Hoff2 : speak_flag s2 = false) by apply H2.
    pose proof (silent_others _ s2 Hoff2 Hcheck) as H3.
    cbv zeta.
    set (s3 := final (others (before_check (sched i)) s2)) in *.
    assert (H13 : silent s s3)
      by (eapply silent_trans; [eapply silent_trans |]; eassumption).
    destruct (_ || _).
    + now exists s3.
    + destruct (IH (S i) s3) as (s' & Hrun & Hs'); [apply H3 |].
      exists s'. split; [exact Hrun |].
      eapply silent_trans; eassumption.
Qed.

(** X10: while speech is disabled and no [speak.enable] message is handled,
    a speak request ends normally whatever else the other threads do
    meanwhile: nothing reaches the engine, no engine is swapped, and
    the lock is released once, by the [with] block. *)
Theorem disabled_speech_stays_silent
    (sched : schedule) (event : message) (s : state) :
  lock s = false ->
  speak_flag s = false ->
  never_enabled sched ->
  exists s',
    handle_speak hash sched event s = Return tt s'
    /\ executed (trace s') = executed (trace s)
    /\ swaps (trace s') = swaps (trace s)
    /\ releases (trace s') = S (releases (trace s))
    /\ lock s' = false
    /\ speak_flag s' = false.
Proof.
  intros Hfree Hoff Hsched.
  rewrite (handle_speak_run hash sched event s Hfree).
  assert (Hent : silent (set_lock true s) (entered event s)).
  { unfold entered.
    assert (Hbase : silent (set_lock true s)
              (record (emit_speech_start event)
                 (record stopwatch_start
                    (record lock_acquire (set_lock true s))))).
    { eapply silent_trans; [| apply silent_record; cbn; congruence].
      eapply silent_trans; [| apply silent_record; cbn; congruence].
      apply silent_record; cbn; congruence. }
    destruct (default false (expect_response event)); [| exact Hbase].
    eapply silent_trans; [exact Hbase |].
    apply silent_record; [apply Hbase | reflexivity | reflexivity |
                          discriminate]. }
  set (s0 := entered event s) in *.
  assert (Hoff0 : speak_flag s0 = false) by apply Hent.
  assert (Hbranch : exists s1,
             speak_branch hash sched event (Configuration s) s0
             = Return tt s1 /\ silent s0 s1).
  { unfold speak_branch. destruct (splits _ _).
    - unfold bind, time_time, get, ret.
      now apply silent_speak_chunks.
    - rewrite (mute_and_speak_disabled_run hash _ _ _ _ Hoff0).
      eexists. split; [reflexivity |].
      apply silent_record; [exact Hoff0 | reflexivity | reflexivity |
                            discriminate]. }
  destruct Hbranch as (s1 & Hrun & H01).
  assert (H1 : silent (set_lock true s) s1)
    by (eapply silent_trans; eassumption).
  destruct H1 as (He & Hs & Hr & Hl & Ht & Hf).
  cbn [trace lock tts set_lock] in He, Hs, Hr, Hl, Ht.
  exists (record (report_timing (default "unknown"%string (ident event))
                    (tts s1))
            (set_lock false (record lock_release (record stopwatch_stop s1)))).
  split.
  { unfold bind at 1. unfold finally. unfold bind at 1. rewrite Hrun.
    unfold call at 1, modify at 1.
    unfold release, bind, call, modify, get. cbn [record lock].
    now rewrite Hl. }
  cbn [trace record set_lock lock speak_flag].
  rewrite !executed_snoc, !swaps_snoc, !releases_snoc.
  cbn [swap_event]. rewrite !app_nil_r, He, Hs, Hr.
  repeat split; try assumption. lia.
Qed.








End SpeechMore.

Section SpeechMoreExamples.
Import Py Speech Runs.

Lemma disabled_speech_stays_silent_witness :
  exists s',
    handle_speak hash27 disabled_again (speak "One. Two.")
      (final (unset_speak_flag fresh))
    = Return tt s'
    /\ executed (trace s') = executed (trace (final (unset_speak_flag fresh)))
    /\ swaps (trace s') = swaps (trace (final (unset_speak_flag fresh)))
    /\ releases (trace s')
       = S (releases (trace (final (unset_speak_flag fresh))))
    /\ lock s' = false
    /\ speak_flag s' = false.
Proof.
  apply (disabled_speech_stays_silent hash27 disabled_again
           (speak "One. Two.") (final (unset_speak_flag fresh))
           eq_refl eq_refl).
  intros i. split; intros H;
    repeat (apply elem_of_cons in H as [H | H]; [discriminate |]);
    now apply elem_of_nil in H.
Defined.



End SpeechMoreExamples.

Section ListenerFacts.
Import Py Speech Runs.

Variable hash : string -> Z.

Lemma no_once_refl (s : state) : no_once s s.
Proof. reflexivity. Qed.

Lemma no_once_trans (s1 s2 s3 : state) :
  no_once s1 s2 -> no_once s2 s3 -> no_once s1 s3.
Proof. unfold no_once. congruence. Qed.

Lemma no_once_record (ev : event) (s : state) :
  is_once ev = false -> no_once s (record ev s).
Proof.
  intros H. unfold no_once. cbn [trace record].
  rewrite List.filter_app. cbn [List.filter]. rewrite H. apply app_nil_r.
Qed.

Lemma no_once_set_lock (b : bool) (s : state) : no_once s (set_lock b s).
Proof. reflexivity. Qed.

Lemma no_once_release (s : state) : no_once s (final (release s)).
Proof.
  unfold release, bind, call, modify, get, raise. cbn [record lock].
  destruct (lock s); cbn [final];
    [eapply no_once_trans; [| apply no_once_set_lock] |];
    now apply no_once_record.
Qed.

Lemma no_once_mute_and_speak (u i : string) (mute : bool) (s : state) :
  no_once s (final (mute_and_speak hash u i mute s)).
Proof.
  destruct (mute_and_speak_final hash u i mute s) as (Htr & _).
  cbv zeta in Htr. unfold no_once. rewrite Htr.
  rewrite List.filter_app. cbn [List.filter is_once].
  destruct (speak_flag s); [| apply app_nil_r].
  rewrite !List.filter_app.
  destruct (py_ne _ _), mute; cbn; apply app_nil_r.
Qed.

Lemma no_once_guarded (body : M state unit) (s : state) :
  no_once s (final (body s)) -> no_once s (final (guarded body s)).
Proof.
  intros H. destruct (guarded_final body s) as [-> | ->]; [exact H |].
  eapply no_once_trans; [exact H | now apply no_once_record].
Qed.

Lemma no_once_speak_chunks (start : float) (ident : string)
    (chunks : list string) :
  forall (i : nat) (s : state),
    no_once s (final (speak_chunks hash quiet start ident i chunks s)).
Proof.
  induction chunks as [| c cs IH]; intros i s; [apply no_once_refl |].
  rewrite speak_chunks_quiet_cons.
  pose proof (no_once_guarded _ s (no_once_mute_and_speak c ident false s))
    as Hg.
  unfold bind.
  destruct (guarded (mute_and_speak hash c ident false) s) as [[] s1 | e s1 | s1];
    cbn [final] in *; try exact Hg.
  destruct (_ || _); [exact Hg |].
  eapply no_once_trans; [exact Hg | apply IH].
Qed.

Lemma no_once_speak_branch (event : message) (c : configuration) (s : state) :
  no_once s (final (speak_branch hash quiet event c s)).
Proof.
  unfold speak_branch. destruct (splits c (utterance event)).
  - apply no_once_speak_chunks.
  - apply no_once_mute_and_speak.
Qed.

(** X13: a request registers the one-shot listener exactly when it
    asks for a response, once, and before any chunk is handed to the
    engine; nothing else in the request registers a one-shot
    handler.  This is so whether speech is enabled or not. *)
Theorem expect_response_registers_listener_once
    (event : message) (s : state) :
  lock s = false ->
  List.filter is_once (trace (final (handle_speak hash quiet event s)))
  = List.filter is_once (trace s)
    ++ (if default false (expect_response event)
        then [ws_once "recognizer_loop:audio_output_end" "_start_listener"]
        else [])
  /\ executed (trace (entered event s)) = executed (trace s)
  /\ no_once (entered event s)
       (final (speak_branch hash quiet event (Configuration s)
                 (entered event s))).
Proof.
  intros Hfree. split.
  2:{ split; [| apply no_once_speak_branch].
      apply frame_executed, frame_entered, bookkeeping_executions. }
  rewrite (handle_speak_run hash quiet event s Hfree).
  assert (Hent : List.filter is_once (trace (entered event s))
                 = List.filter is_once (trace s)
                   ++ (if default false (expect_response event)
                       then [ws_once "recognizer_loop:audio_output_end"
                               "_start_listener"]
                       else [])).
  { unfold entered. destruct (default false (expect_response event));
      cbn [trace record set_lock]; rewrite !List.filter_app; cbn;
      now rewrite ?app_nil_r. }
  rewrite <- Hent.
  pose proof (no_once_speak_branch event (Configuration s) (entered event s))
    as Hb.
  set (s0 := entered event s) in *.
  unfold bind at 1, finally. unfold bind at 1.
  destruct (speak_branch hash quiet event (Configuration s) s0)
    as [[] s1 | e s1 | s1]; cbn [final] in Hb |- *.
  - unfold call at 1, modify at 1.
    pose proof (no_once_record stopwatch_stop s1 eq_refl) as H1.
    pose proof (no_once_release (record stopwatch_stop s1)) as H2.
    destruct (release (record stopwatch_stop s1)) as [[] s2 | e s2 | s2];
      cbn [final] in H2 |- *.
    + unfold bind, get, call, modify. cbn [final].
      unfold no_once in *. cbn [trace record].
      rewrite List.filter_app. cbn. rewrite app_nil_r. congruence.
    + unfold no_once in *. congruence.
    + unfold no_once in *. congruence.
  - pose proof (no_once_release s1) as H2.
    destruct (release s1) as [[] s2 | e' s2 | s2]; cbn [final] in H2 |- *;
      unfold no_once in *; congruence.
  - exact Hb.
Qed.

End ListenerFacts.

Section ListenerExamples.
Import Py Speech Runs.

Lemma expect_response_registers_listener_once_witness :
  List.filter is_once
    (trace (final (handle_speak hash27 quiet (ask "Ready?") fresh)))
  = List.filter is_once (trace fresh)
    ++ [ws_once "recognizer_loop:audio_output_end" "_start_listener"].
Proof.
  exact (proj1 (expect_response_registers_listener_once hash27
                  (ask "Ready?") fresh eq_refl)).
Defined.

End ListenerExamples.

(** ** The cache curator, continued *)

Section CuratorMore.
Import Py Util.

Lemma files_unlink_all (ps : list string) :
  forall (w : os) (path : string),
    files (unlink_all ps w) !! path
    = if bool_decide (path ∈ ps) then None else files w !! path.
Proof.
  unfold unlink_all. cbn [files].
  induction ps as [| p ps IH]; intros w path.
  - cbn [foldl]. rewrite bool_decide_eq_false_2; [reflexivity |].
    apply not_elem_of_nil.
  - cbn [foldl].
    specialize (IH {| files := delete p (files w);
                      listable := listable w; dangling := dangling w;
                      usage := usage w; unlinked := unlinked w |} path).
    cbn [files] in IH. rewrite IH.
    destruct (decide (path ∈ ps)) as [Hin | Hin].
    + rewrite !bool_decide_eq_true_2; [reflexivity | now right | exact Hin].
    + rewrite (bool_decide_eq_false_2 _ Hin).
      destruct (decide (path = p)) as [-> | Hne].
      * rewrite bool_decide_eq_true_2 by now left. apply lookup_delete_eq.
      * rewrite bool_decide_eq_false_2.
        -- now apply lookup_delete_ne.
        -- intros H. apply elem_of_cons in H as [H | H]; congruence.
Qed.

Lemma removable_spec (w : os) (e : entry) :
  removable w e = true ->
  exists st, files w !! path_of e = Some st /\ refused st = false
             /\ S_ISDIR (st_mode st) = false.
Proof.
  unfold removable, os_remove.
  destruct (files w !! path_of e) as [st |]; [| discriminate].
  destruct (refused st) eqn:Hr, (S_ISDIR (st_mode st)) eqn:Hd;
    try discriminate.
  intros _. now exists st.
Qed.

(** X14: [curate_cache] unlinks nothing but regular files that lie directly
    in the directory, each at most once: [ps] are the paths unlinked,
    every other path keeps its file, and the disk figures are not
    touched.  This holds for every outcome: the return, the error of
    [int()], and the [OSError] of [os.listdir] or [os.stat], which
    leave everything as it was. *)
Theorem curate_cache_unlinks_only_cache_files
    (directory : string) (min_free_percent : float) (min_free_disk : Z)
    (w : os) :
  let w' := final (curate_cache directory min_free_percent min_free_disk w) in
  exists ps,
    unlinked w' = unlinked w ++ ps
    /\ NoDup ps
    /\ (forall path, path ∈ ps ->
          files w' !! path = None
          /\ exists st, files w !! path = Some st
                        /\ is_Some (child_name directory path)
                        /\ S_ISREG (st_mode st) = true
                        /\ refused st = false)
    /\ (forall path, path ∉ ps -> files w' !! path = files w !! path)
    /\ usage w' = usage w
    /\ (forall e, curate_cache directory min_free_percent min_free_disk w
                  = Raise e w' -> ps = []).
Proof.
  cbv zeta.
  assert (Hsame : forall o : outcome os unit, final o = w ->
            exists ps,
              unlinked (final o) = unlinked w ++ ps /\ NoDup ps
              /\ (forall path, path ∈ ps ->
                    files (final o) !! path = None
                    /\ exists st, files w !! path = Some st
                                  /\ is_Some (child_name directory path)
                                  /\ S_ISREG (st_mode st) = true
                                  /\ refused st = false)
              /\ (forall path, path ∉ ps ->
                    files (final o) !! path = files w !! path)
              /\ usage (final o) = usage w
              /\ (forall e, o = Raise e (final o) -> ps = [])).
  { intros o ->. exists []. rewrite app_nil_r.
    split; [reflexivity |]. split; [constructor |].
    split; [intros path H; now apply not_elem_of_nil in H |].
    repeat split. }
  rewrite curate_cache_run.
  destruct (low_diskspace _ _ _); [| now apply Hsame].
  destruct (bytes_needed _ _) as [e | b]; [now apply Hsame |].
  destruct (readable directory w); [| now apply Hsame].
  destruct (sorted_ascending (regular_in directory w)) as (_ & _ & Hperm).
  assert (Hnd : NoDup (path_of <$> sorted (regular_in directory w))).
  { rewrite Hperm. apply regular_in_NoDup. }
  destruct (sweep_run b _ 0 w Hnd) as (done & rest & Hsplit & Hrun & _).
  rewrite Hrun. cbn [final].
  set (ps := path_of <$> filter (fun e => removable w e = true) done).
  exists ps. split; [reflexivity |]. split.
  { rewrite Hsplit, fmap_app in Hnd. apply NoDup_app in Hnd as [Hnd _].
    subst ps. eapply sublist_NoDup; [exact Hnd |].
    apply fmap_sublist, sublist_filter. }
  split.
  { intros path Hin. split.
    - rewrite files_unlink_all. now rewrite bool_decide_eq_true_2.
    - subst ps. apply list_elem_of_fmap in Hin as (e & -> & He).
      apply list_elem_of_filter in He as [Hrem He].
      assert (Hreg : e ∈ regular_in directory w).
      { rewrite <- Hperm, Hsplit. apply elem_of_app. now left. }
      apply regular_in_spec in Hreg as (st & Hst & Hchild & Hmode & _).
      apply removable_spec in Hrem as (st' & Hst' & Href & _).
      exists st. repeat split; try assumption. congruence. }
  split; [| split; [reflexivity | discriminate]].
  intros path Hout. rewrite files_unlink_all.
  now rewrite bool_decide_eq_false_2.
Qed.

End CuratorMore.

(** ** Strings and paths *)

Section TextFacts.
Import Py Util Chunks Text.
Local Open Scope string_scope.

Lemma replace_from_skip (old new p r : string) :
  replace_from old new (String.length p) (p ++ r) = replace_from old new 0 r.
Proof.
  induction p as [| c p IH]; [reflexivity |].
  change (replace_from old new (String.length p) (p ++ r)
          = replace_from old new 0 r).
  exact IH.
Qed.

Lemma get_http_match (rest : string) :
  get_http ("https://" ++ rest) = "http://" ++ get_http rest.
Proof.
  unfold get_http.
  change (replace_from "https://" "http://" 0 ("https://" ++ rest))
    with ("http://"
          ++ replace_from "https://" "http://" (String.length "ttps://")
               ("ttps://" ++ rest)).
  now rewrite replace_from_skip.
Qed.

Lemma get_http_step (c : ascii) (s : string) :
  startswith "https://" (String c s) = false ->
  get_http (String c s) = String c (get_http s).
Proof. unfold get_http. cbn [replace_from]. now intros ->. Qed.

Lemma startswith_app (p s : string) :
  startswith p s = true -> exists r, s = p ++ r.
Proof.
  unfold startswith. destruct (strip_prefix p s) as [r |] eqn:H;
    [| discriminate].
  intros _. exists r. now apply strip_prefix_app.
Qed.

Lemma startswith_cons (a : ascii) (p : string) (c : ascii) (s : string) :
  startswith (String a p) (String c s) = (a =? c)%char && startswith p s.
Proof.
  unfold startswith. cbn [strip_prefix]. now destruct (a =? c)%char.
Qed.

Lemma occurs_after_http (x : string) :
  occurs "https://" ("http://" ++ x) = occurs "https://" x.
Proof. reflexivity. Qed.

Lemma get_http_keeps_prefix (l : string) :
  no_h l = true ->
  forall s, startswith l (get_http s) = true -> startswith l s = true.
Proof.
  induction l as [| a l IH]; intros Hl s; [reflexivity |].
  cbn in Hl. apply andb_true_iff in Hl as [Ha Hl].
  apply negb_true_iff in Ha.
  destruct s as [| c s]; [intros H; exact H |].
  destruct (startswith "https://" (String c s)) eqn:Hm.
  - apply startswith_app in Hm as [r ->]. rewrite get_http_match.
    unfold startswith.
    change (strip_prefix (String a l) ("http://" ++ get_http r))
      with (if (a =? "h")%char then strip_prefix l ("ttp://" ++ get_http r)
            else None).
    now rewrite Ha.
  - rewrite (get_http_step _ _ Hm), !startswith_cons.
    destruct (a =? c)%char; [| intros H; exact H].
    apply IH, Hl.
Qed.

Lemma get_http_clean_upto (n : nat) :
  forall uri, (String.length uri <= n)%nat ->
              occurs "https://" (get_http uri) = false.
Proof.
  induction n as [| n IH]; intros uri Hlen.
  - destruct uri; [reflexivity | cbn in Hlen; lia].
  - destruct uri as [| c s]; [reflexivity |].
    destruct (startswith "https://" (String c s)) eqn:Hm.
    + apply startswith_app in Hm as [r Hr]. rewrite Hr, get_http_match.
      rewrite occurs_after_http. apply IH.
      change ("https://" ++ r)
        with (String "h" (String "t" (String "t" (String "p"
                (String "s" (String ":" (String "/" (String "/" r))))))))
        in Hr.
      injection Hr as _ ->. cbn [String.length] in Hlen. lia.
    + rewrite (get_http_step _ _ Hm). cbn [occurs].
      assert (Hno : startswith "https://" (String c (get_http s)) = false).
      { destruct (startswith "https://" (String c (get_http s))) eqn:Hs;
          [| reflexivity].
        rewrite <- Hm.
        rewrite (startswith_cons "h" "ttps://") in Hs |- *.
        apply andb_true_iff in Hs as [-> Hs]. cbn [andb]. symmetry.
        exact (get_http_keeps_prefix "ttps://" eq_refl s Hs). }
      unfold startswith in Hno.
      destruct (strip_prefix "https://" (String c (get_http s)));
        [discriminate |].
      apply IH. cbn in Hlen. lia.
Qed.

Lemma get_http_fixed (uri : string) :
  occurs "https://" uri = false -> get_http uri = uri.
Proof.
  induction uri as [| c s IH]; [reflexivity |].
  cbn [occurs]. intros H.
  destruct (strip_prefix "https://" (String c s)) eqn:Hs; [discriminate |].
  rewrite get_http_step by (unfold startswith; now rewrite Hs).
  now rewrite IH.
Qed.

(** X15: the result of [get_http] has no ["https://"] left in it; a
    URI without ["https://"] comes back as it is; so applying
    [get_http] twice is the same as once.  A leading ["https://"]
    becomes ["http://"]. *)
Theorem get_http_removes_every_https (uri : string) :
  occurs "https://" (get_http uri) = false
  /\ (occurs "https://" uri = false -> get_http uri = uri)
  /\ get_http (get_http uri) = get_http uri
  /\ get_http ("https://" ++ uri) = "http://" ++ get_http uri.
Proof.
  assert (H : occurs "https://" (get_http uri) = false)
    by (apply (get_http_clean_upto (String.length uri)); lia).
  split; [exact H |]. split; [apply get_http_fixed |].
  split; [now apply get_http_fixed | apply get_http_match].
Qed.

Lemma list_ascii_app (a b : string) :
  list_ascii_of_string (a ++ b)
  = (list_ascii_of_string a ++ list_ascii_of_string b)%list.
Proof.
  induction a as [| c a IH]; [reflexivity |].
  change (c :: list_ascii_of_string (a ++ b)
          = c :: (list_ascii_of_string a ++ list_ascii_of_string b)%list).
  now rewrite IH.
Qed.

(** X16: [remove_last_slash] takes one trailing slash away and no more;
    a URL that does not end with a slash, the empty one included, and
    [None] come back as they are. *)
Theorem remove_last_slash_removes_one (u : string) :
  remove_last_slash (Some (u ++ "/")) = Some u
  /\ (ends_with_sep u = false -> remove_last_slash (Some u) = Some u)
  /\ remove_last_slash (Some "") = Some ""
  /\ remove_last_slash None = None.
Proof.
  split; [| split; [| split; reflexivity]].
  - unfold remove_last_slash, ends_with_sep.
    rewrite list_ascii_app.
    change (list_ascii_of_string "/") with ["/"%char].
    rewrite rev_app_distr. cbn [rev app List.rev List.app].
    rewrite removelast_last, string_of_list_ascii_of_string.
    destruct u; reflexivity.
  - intros H. unfold remove_last_slash. rewrite H.
    now rewrite andb_false_r.
Qed.

Lemma dialect_dir_result (w : filesystem) (base_path lang main p : string) :
  dialect_dir w base_path lang main = inr p ->
  p = os_path_join base_path lang
  \/ (isdir w p = true
      /\ exists name names,
           listdir w base_path = inr names /\ name ∈ names
           /\ startswith main name = true
           /\ p = os_path_join base_path name).
Proof.
  unfold dialect_dir.
  destruct (isdir w base_path); [| intros [= <-]; now left].
  destruct (listdir w base_path) as [e | names]; [discriminate |].
  destruct (List.filter _ _) as [| q paths] eqn:Hpaths;
    intros [= <-]; [now left | right].
  assert (Hin : List.In q (List.filter (isdir w)
                   (os_path_join base_path
                      <$> List.filter (startswith main) names)))
    by (rewrite Hpaths; now left).
  apply List.filter_In in Hin as [Hin Hdir].
  split; [exact Hdir |].
  apply list_elem_of_In, list_elem_of_fmap in Hin as (name & -> & Hname).
  apply list_elem_of_In, List.filter_In in Hname as [Hname Hstart].
  exists name, names. apply list_elem_of_In in Hname. auto.
Qed.

(** X17: whatever the directories are, [get_language_dir] returns
    either an existing directory or the default, [base_path] joined
    with [lang]; the directory is the one of the language itself when
    it exists, or that of the main language (the part before the
    dash), or one that lies in [base_path] under a name beginning with
    the main language.  It raises only when [os.listdir] does. *)
Theorem get_language_dir_result
    (w : filesystem) (base_path lang : string) :
  let main := if has_dash lang then before_dash lang else lang in
  (isdir w (os_path_join base_path lang) = true ->
   get_language_dir w base_path lang = inr (os_path_join base_path lang))
  /\ (forall p, get_language_dir w base_path lang = inr p ->
        p = os_path_join base_path lang
        \/ (isdir w p = true
            /\ (p = os_path_join base_path main
                \/ exists name names,
                     listdir w base_path = inr names /\ name ∈ names
                     /\ startswith main name = true
                     /\ p = os_path_join base_path name)))
  /\ (forall e, get_language_dir w base_path lang = inl e ->
        listdir w base_path = inl e).
Proof.
  cbv zeta. unfold get_language_dir.
  destruct (isdir w (os_path_join base_path lang)) eqn:Hlang.
  { split; [reflexivity |]. split; [| discriminate].
    intros p [= <-]. now left. }
  split; [discriminate |].
  assert (Hraise : forall main e,
            dialect_dir w base_path lang main = inl e ->
            listdir w base_path = inl e).
  { intros main e. unfold dialect_dir.
    destruct (isdir w base_path); [| discriminate].
    destruct (listdir w base_path); [congruence |].
    destruct (List.filter _ _); discriminate. }
  destruct (has_dash lang).
  - destruct (isdir w (os_path_join base_path (before_dash lang))) eqn:Hmain.
    + split; [| discriminate]. intros p [= <-]. right. auto.
    + split; [| apply Hraise]. intros p Hp.
      apply dialect_dir_result in Hp as [-> | [Hdir Hp]]; [now left |].
      right. auto.
  - split; [| apply Hraise]. intros p Hp.
    apply dialect_dir_result in Hp as [-> | [Hdir Hp]]; [now left |].
    right. auto.
Qed.

Example get_language_dir_dialect :
  get_language_dir dialects_only "/res" "en-us" = inr "/res/en-gb"
  /\ get_language_dir dialects_only "/res" "de-de" = inr "/res/de-de"
  /\ get_language_dir dialects_only "/res" "fr-fr" = inr "/res/fr-fr"
  /\ get_language_dir dialects_only "/none" "en-us" = inr "/none/en-us".
Proof. vm_compute. repeat split. Qed.

End TextFacts.

Section ReadDictFacts.
Import Py Util Chunks Text.
Local Open Scope string_scope.

Lemma split_at_skip (sep p r : string) (piece : list ascii) :
  split_at sep (String.length p) piece (p ++ r) = split_at sep 0 piece r.
Proof.
  induction p as [| c p IH]; [reflexivity |].
  change (split_at sep (String.length p) piece (p ++ r)
          = split_at sep 0 piece r).
  exact IH.
Qed.

Lemma split_at_none (sep s : string) :
  occurs sep s = false ->
  forall piece,
    split_at sep 0 piece s = [string_of_list_ascii (rev piece) ++ s].
Proof.
  induction s as [| c s IH]; intros Hno piece.
  - cbn [split_at]. now rewrite append_empty_r.
  - cbn [occurs] in Hno. cbn [split_at]. unfold startswith.
    destruct (strip_prefix sep (String c s)); [discriminate |].
    rewrite IH by exact Hno. cbn [rev].
    change (List.rev piece) with (rev piece). now rewrite string_snoc.
Qed.

Lemma read_line_error (div : string) (d : gmap string string)
    (line : string) (e : exn) :
  read_line div d line = inl e -> e = ValueError.
Proof.
  unfold read_line, str_split. destruct (div =? ""); [congruence |].
  destruct (split_at div 0 [] line) as [| a [| b [| c l]]]; congruence.
Qed.

Lemma read_line_without_div (div : string) (d : gmap string string)
    (line : string) :
  occurs div line = false -> read_line div d line = inl ValueError.
Proof.
  intros Hno. unfold read_line, str_split.
  destruct (div =? ""); [reflexivity |].
  now rewrite split_at_none.
Qed.

Lemma read_from_without_div (div line : string) (lines : list string) :
  line ∈ lines -> occurs div line = false ->
  forall d, read_from div d lines = inl ValueError.
Proof.
  intros Hin Hno. induction lines as [| l lines IH]; intros d.
  - now apply elem_of_nil in Hin.
  - cbn [read_from]. destruct (read_line div d l) as [e | d'] eqn:Hl.
    + now apply read_line_error in Hl as ->.
    + apply elem_of_cons in Hin as [<- | Hin].
      * rewrite read_line_without_div in Hl by exact Hno. discriminate.
      * now apply IH.
Qed.

(** X18: [read_dict] raises [ValueError], and returns no dictionary,
    as soon as one line of the file does not contain the divider: an
    empty line at the end of the file is enough. *)
Theorem read_dict_needs_divider_on_every_line
    (lines : list string) (div line : string) :
  line ∈ lines ->
  occurs div line = false ->
  read_dict lines div = inl ValueError.
Proof. intros Hin Hno. now apply read_from_without_div with line. Qed.

Lemma read_dict_needs_divider_on_every_line_witness :
  read_dict ["lang = en-us" ++ String "010" ""; String "010" ""] "="
  = inl ValueError.
Proof.
  apply (read_dict_needs_divider_on_every_line _ "=" (String "010" "")).
  - right. left.
  - reflexivity.
Defined.

Lemma has_char_startswith (c : ascii) (sep' s : string) :
  has_char c s = false -> occurs (String c sep') s = false.
Proof.
  induction s as [| x s IH]; [reflexivity |].
  cbn [has_char occurs strip_prefix]. intros H.
  apply orb_false_iff in H as [Hx H].
  rewrite Ascii.eqb_sym, Hx. now apply IH.
Qed.

Lemma split_at_pass (c : ascii) (sep' k r : string) :
  has_char c k = false ->
  forall piece,
    split_at (String c sep') 0 piece (k ++ r)
    = split_at (String c sep') 0 (rev (list_ascii_of_string k) ++ piece) r.
Proof.
  induction k as [| x k IH]; intros Hk piece; [reflexivity |].
  cbn [has_char] in Hk. apply orb_false_iff in Hk as [Hx Hk].
  change (String x k ++ r) with (String x (k ++ r)).
  cbn [split_at]. rewrite startswith_cons, Ascii.eqb_sym, Hx. cbn [andb].
  rewrite IH by exact Hk.
  change (list_ascii_of_string (String x k))
    with (x :: list_ascii_of_string k).
  cbn [rev]. change (List.rev (list_ascii_of_string k))
    with (rev (list_ascii_of_string k)).
  now rewrite <- app_assoc.
Qed.

Lemma strip_prefix_self (p r : string) : strip_prefix p (p ++ r) = Some r.
Proof.
  induction p as [| a p IH]; [reflexivity |].
  change (String a p ++ r) with (String a (p ++ r)).
  cbn [strip_prefix]. now rewrite Ascii.eqb_refl.
Qed.

Lemma split_at_entry (c : ascii) (sep' k v : string) :
  has_char c k = false -> has_char c v = false ->
  split_at (String c sep') 0 [] (k ++ String c sep' ++ v) = [k; v].
Proof.
  intros Hk Hv. rewrite split_at_pass by exact Hk. rewrite app_nil_r.
  change (String c sep' ++ v) with (String c (sep' ++ v)).
  cbn [split_at]. unfold startswith.
  change (String c (sep' ++ v)) with (String c sep' ++ v) at 1.
  rewrite strip_prefix_self.
  rewrite rev_involutive, string_of_list_ascii_of_string.
  f_equal.
  replace (String.length (String c sep') - 1)%nat with (String.length sep')
    by (cbn [String.length]; lia).
  rewrite split_at_skip.
  rewrite split_at_none by now apply has_char_startswith.
  reflexivity.
Qed.

(** X19: when the first character of the divider is neither in the
    keys nor in the values, [read_dict] reads the lines
    [key div value] into the dictionary that maps each stripped key to
    its stripped value, a later line replacing an earlier one with the
    same key. *)
Theorem read_dict_reads_entries
    (c : ascii) (div' : string) (kvs : list (string * string)) :
  Forall (fun kv => has_char c kv.1 = false /\ has_char c kv.2 = false) kvs ->
  read_dict ((fun kv => kv.1 ++ String c div' ++ kv.2) <$> kvs)
            (String c div')
  = inr (stored kvs)
  /\ (forall k v,
        stored (kvs ++ [(k, v)])%list !! strip k = Some (strip v)).
Proof.
  intros Hkvs. split.
  - unfold read_dict, stored. generalize (∅ : gmap string string).
    induction Hkvs as [| [k v] kvs [Hk Hv] _ IH]; intros d; [reflexivity |].
    cbn [fmap list_fmap read_from foldl fst snd].
    unfold read_line, str_split.
    change (String c div' =? "") with false.
    rewrite split_at_entry by assumption. apply IH.
  - intros k v. unfold stored. rewrite foldl_app. cbn [foldl fst snd].
    apply lookup_insert_eq.
Qed.

Lemma read_dict_reads_entries_witness :
  read_dict ["lang = en "; "tts=mimic"; "lang= de"] "="
  = inr (stored [("lang ", " en "); ("tts", "mimic"); ("lang", " de")]).
Proof.
  refine (proj1 (read_dict_reads_entries "=" ""
                   [("lang ", " en "); ("tts", "mimic"); ("lang", " de")] _)).
  repeat constructor.
Defined.

End ReadDictFacts.

(** ** The eyes *)

Section EyesFacts.
Import Py Eyes.

Lemma append_inv_head (p x y : string) :
  (p ++ x)%string = (p ++ y)%string -> x = y.
Proof.
  induction p as [| c p IH]; intros H; [exact H |].
  change (String c (p ++ x)%string = String c (p ++ y)%string) in H.
  injection H as H. now apply IH.
Qed.

Lemma color_run (ev : event) (w : writer) :
  color ev w
  = Return tt (w ++ [("eyes.color="
                      ++ pretty (packed (channel ev "r") (channel ev "g")
                                   (channel ev "b")))%string]).
Proof.
  unfold color, channel, with_data.
  destruct ev as [data |]; [| reflexivity].
  destruct (bool_decide_reflect (data = ∅)) as [-> | _]; reflexivity.
Qed.

(** X20: [color] writes one command, the number
    [r * 65536 + g * 256 + b] after ["eyes.color="], where each channel
    is 255 when the message does not give it, so that a call without
    data writes white, 16777215; as long as the channels are bytes the
    number is below 2^24, and two messages that make [color] write the
    same command have the same red, green and blue. *)
Theorem color_commands_tell_colours_apart (ev ev' : event) (w : writer) :
  (forall k, k ∈ ["r"; "g"; "b"]%string -> 0 <= channel ev k <= 255) ->
  (forall k, k ∈ ["r"; "g"; "b"]%string -> 0 <= channel ev' k <= 255) ->
  color ev w
  = Return tt
      (w ++ [("eyes.color="
              ++ pretty (channel ev "r" * 65536 + channel ev "g" * 256
                         + channel ev "b"))%string])
  /\ 0 <= channel ev "r" * 65536 + channel ev "g" * 256 + channel ev "b"
     < 2 ^ 24
  /\ (color ev w = color ev' w ->
      channel ev "r" = channel ev' "r"
      /\ channel ev "g" = channel ev' "g"
      /\ channel ev "b" = channel ev' "b")
  /\ color None w = Return tt (w ++ ["eyes.color=16777215"%string])
  /\ color (Some ∅) w = Return tt (w ++ ["eyes.color=16777215"%string])
  /\ (forall d k v, d !! k = Some v -> channel (Some d) k = v)
  /\ (forall d k, d !! k = None -> channel (Some d) k = 255).
Proof.
  intros Hb Hb'. rewrite !color_run.
  pose proof (Hb "r"%string ltac:(repeat constructor)).
  pose proof (Hb "g"%string ltac:(repeat constructor)).
  pose proof (Hb "b"%string ltac:(repeat constructor)).
  pose proof (Hb' "r"%string ltac:(repeat constructor)).
  pose proof (Hb' "g"%string ltac:(repeat constructor)).
  pose proof (Hb' "b"%string ltac:(repeat constructor)).
  split; [reflexivity |]. split; [lia |]. split.
  - intros [= Heq]. apply app_inv_head in Heq. injection Heq as Heq.
    apply append_inv_head, pretty_Z_inj in Heq.
    unfold packed in Heq. lia.
  - split; [reflexivity |]. split; [reflexivity |].
    split; intros d k; [intros v |]; intros Hk; unfold channel; cbn;
      now rewrite Hk.
Qed.

Lemma color_commands_tell_colours_apart_witness :
  color (rgb 1 2 3) [] = Return tt ["eyes.color=66051"%string].
Proof.
  refine (proj1 (color_commands_tell_colours_apart
                   (rgb 1 2 3) (rgb 1 2 3) [] _ _));
    intros k Hk;
    repeat (apply elem_of_cons in Hk as [-> | Hk]; [vm_compute; split; discriminate |]);
    now apply elem_of_nil in Hk.
Defined.

Lemma fill_table :
  forallb (fun p => match fill_amount p with
                    | inr a => (0 <=? a) && (a <=? 23)
                               && (Z.abs (100 * a - 23 * p) <=? 50)
                    | inl _ => false
                    end) (seqZ 0 101) = true.
Proof. vm_compute. reflexivity. Qed.

(** X21: for a percentage from 0 to 100, [fill] lights a number of
    pixels from 0 to 23: the integer nearest to 23 hundredths of the
    percentage. *)
Theorem fill_amount_in_range (percent : Z) :
  0 <= percent <= 100 ->
  exists amount,
    fill_amount percent = inr amount
    /\ 0 <= amount <= 23
    /\ Z.abs (100 * amount - 23 * percent) <= 50
    /\ forall w, fill (Some {["percentage"%string := percent]}) w
                 = Return tt (w ++ [("eyes.fill=" ++ pretty amount)%string]).
Proof.
  intros Hp.
  pose proof fill_table as Ht. rewrite forallb_forall in Ht.
  specialize (Ht percent).
  destruct (fill_amount percent) as [e | a] eqn:Ha.
  - assert (false = true); [| discriminate].
    apply Ht, list_elem_of_In, elem_of_seqZ. lia.
  - exists a. split; [reflexivity |].
    assert (Hin : List.In percent (seqZ 0 101))
      by (apply list_elem_of_In, elem_of_seqZ; lia).
    apply Ht in Hin. apply andb_true_iff in Hin as [Hin H3].
    apply andb_true_iff in Hin as [H1 H2].
    split; [lia |]. split; [lia |].
    intros w. unfold fill, with_data.
    rewrite bool_decide_eq_false_2
      by (intros H; apply (f_equal (lookup "percentage"%string)) in H;
          now rewrite lookup_singleton_eq in H).
    rewrite lookup_singleton_eq.
    change (default 0 (Some percent)) with percent. now rewrite Ha.
Qed.

Lemma fill_amount_in_range_witness :
  exists amount, fill_amount 50 = inr amount /\ 0 <= amount <= 23.
Proof.
  destruct (fill_amount_in_range 50 ltac:(lia)) as (a & Ha & Hr & _).
  exists a. split; assumption.
Defined.

End EyesFacts.
